(** * czx-command: the rule resolver of the [orm] command

    A shallow embedding of [cmd/orm/orm.go]: the directive parser
    ([Orm.formatGlobal]), the per-table resolver ([Orm.optByTable],
    [Orm.genoptByTable]) and the driver ([Orm.run], [Orm.exec], [Orm.model],
    [Orm.dao]), followed by the properties of the resolver.

    Conventions of the embedding.
    - Go strings are [string] (byte strings); Go slices are lists (every
      [append] of the source is a list append: no slice is read again after
      a later append could have written behind its length).
    - Go maps that are only indexed are [gmap]; a Go map that is ranged over
      ([opt.dataType], [opt.daoApi]) is the list of its entries in the order
      in which [range] visits them (keys pairwise distinct), since that order
      is chosen by the Go runtime.
    - The external generator [*gen.Generator] is the trace of the calls made
      on it, oldest first; the terminal is the list of printed messages. *)

From stdpp Require Import base strings list gmap fin_maps.

Local Open Scope string_scope.
Local Open Scope list_scope.

(** ** The Go [strings] package, as far as the resolver uses it *)

Module strings_go.

(** [strings.HasPrefix s prefix]. *)
Fixpoint HasPrefix (s prefix : string) {struct prefix} : bool :=
  match prefix with
  | EmptyString => true
  | String p prefix' =>
      match s with
      | EmptyString => false
      | String c s' => if decide (c = p) then HasPrefix s' prefix' else false
      end
  end.

(** The scanning loop of [strings.Split] for a non-empty separator: the
    leftmost occurrence of [sep] closes the current segment and the scan
    resumes behind it.  [skip] counts the bytes of a matched separator that
    are still to be stepped over, [cur] is the segment read so far. *)
Fixpoint splitFrom (sep : string) (skip : nat) (cur s : string) : list string :=
  match s with
  | EmptyString => [cur]
  | String c s' =>
      match skip with
      | S k => splitFrom sep k cur s'
      | O =>
          if HasPrefix s sep
          then cur :: splitFrom sep (String.length sep - 1) EmptyString s'
          else splitFrom sep 0 (cur +:+ String c EmptyString) s'
      end
  end.

(** With an empty separator Go explodes the string into its UTF-8 sequences;
    the resolver never does that (its separators are "->", "," and "@"), and
    bytes stand for the sequences here. *)
Fixpoint explode (s : string) : list string :=
  match s with
  | EmptyString => []
  | String c s' => String c EmptyString :: explode s'
  end.

(** [strings.Split s sep]. *)
Definition Split (s sep : string) : list string :=
  match sep with
  | EmptyString => explode s
  | String _ _ => splitFrom sep 0 EmptyString s
  end.

(** [strings.Join elems sep]. *)
Fixpoint Join (elems : list string) (sep : string) : string :=
  match elems with
  | [] => EmptyString
  | [e] => e
  | e :: rest => e +:+ sep +:+ Join rest sep
  end.

(** [strings.Contains s substr]. *)
Fixpoint Contains (s substr : string) : bool :=
  HasPrefix s substr ||
  match s with
  | EmptyString => false
  | String _ s' => Contains s' substr
  end.

(** ASCII part of [strings.ToLower]. *)
Definition lowerByte (c : Ascii.ascii) : Ascii.ascii :=
  let n := Ascii.nat_of_ascii c in
  if (65 <=? n)%nat && (n <=? 90)%nat then Ascii.ascii_of_nat (n + 32) else c.

Fixpoint ToLower (s : string) : string :=
  match s with
  | EmptyString => EmptyString
  | String c s' => String (lowerByte c) (ToLower s')
  end.

End strings_go.

Import strings_go.

(** ** Data model *)

(** [gen.ModelOpt]: the three option builders of [gorm.io/gen] that the
    resolver uses.  [FieldGORMTag columnName column] stands for
    [gen.FieldGORMTag(columnName, func(tag) { return tag.Set("column", column) })],
    the only closure the source ever passes. *)
Inductive ModelOpt : Type :=
  | FieldIgnore (columnNames : list string)
  | FieldJSONTag (columnName jsonTag : string)
  | FieldGORMTag (columnName column : string).

Global Instance ModelOpt_eq_dec : EqDecision ModelOpt.
Proof. solve_decision. Defined.

(** [*generate.QueryStructMeta], the value returned by [GenerateModel] and
    [GenerateModelAs]: [Orm.dao] reads its [TableName] field, which the
    generator sets to the table name it was called with. *)
Record QueryStructMeta : Type := {
  TableName : string;
  ModelStructName : option string;
}.

(** [color.Red], [color.Yellow], [color.Green]. *)
Inductive Color : Type := Red | Yellow | Green.

(** A Go result [(T, error)]. *)
Inductive result (A : Type) : Type :=
  | Ok (a : A)
  | Err (e : string).
Global Arguments Ok {A} a.
Global Arguments Err {A} e.

(** [*gorm.DB], of which only [Migrator().GetTables()] is used. *)
Record DB : Type := { GetTables : result (list string) }.

(** [*pflag.FlagSet], of which the flags "style" and "tables" are read. *)
Record FlagSet : Type := {
  GetString_style : result string;
  GetStringArray_tables : result (list string);
}.

Definition nl : string := String (Ascii.ascii_of_nat 10) EmptyString.

Section Resolver.

(** [DataTypeFn = func(gorm.ColumnType) string] and the values of
    [daoApi map[string]any] are opaque to the resolver. *)
Context {DataTypeFn Annotation : Type}.

(** The calls made on [*gen.Generator]. *)
Inductive GenCall : Type :=
  | UseDB
  | WithJSONTagNameStrategy (ns : string → string)
  | WithFileNameStrategy (ns : string → string)
  | WithDataTypeMap (newMap : gmap string DataTypeFn)
  | GenerateModel (tableName : string) (opts : list ModelOpt)
  | GenerateModelAs (tableName modelName : string) (opts : list ModelOpt)
  | ApplyBasic (models : list QueryStructMeta)
  | ApplyInterface (fc : Annotation) (models : list QueryStructMeta)
  | Execute.

(** [OrmOption] ([gconf] is handed to [gen.NewGenerator] untouched and is
    left out). *)
Record OrmOption : Type := {
  db : option DB;
  rename : gmap string string;
  ignore : list string;
  retags : list string;
  reGromTags : list string;
  dataType : list (string * DataTypeFn);
  daoTables : list string;
  daoApi : list (string * Annotation);
}.

(** [Orm].  [stdout] is not a field of the Go struct: it collects what the
    methods print with the [color] package. *)
Record Orm : Type := {
  opt : OrmOption;
  generator : list GenCall;
  retagopt : gmap string (list (string * string));
  regormtag : gmap string (list (string * string));
  ignoreopt : gmap string (list string);
  types : gmap string (gmap string DataTypeFn);
  globalTypes : gmap string DataTypeFn;
  global : list ModelOpt;
  structs : list QueryStructMeta;
  stdout : list (Color * string);
}.

(** Field assignments. *)
Definition set_generator (g : list GenCall) (o : Orm) : Orm :=
  {| opt := opt o; generator := g; retagopt := retagopt o; regormtag := regormtag o;
     ignoreopt := ignoreopt o; types := types o; globalTypes := globalTypes o;
     global := global o; structs := structs o; stdout := stdout o |}.

Definition set_retagopt (m : gmap string (list (string * string))) (o : Orm) : Orm :=
  {| opt := opt o; generator := generator o; retagopt := m; regormtag := regormtag o;
     ignoreopt := ignoreopt o; types := types o; globalTypes := globalTypes o;
     global := global o; structs := structs o; stdout := stdout o |}.

Definition set_ignoreopt (m : gmap string (list string)) (o : Orm) : Orm :=
  {| opt := opt o; generator := generator o; retagopt := retagopt o; regormtag := regormtag o;
     ignoreopt := m; types := types o; globalTypes := globalTypes o;
     global := global o; structs := structs o; stdout := stdout o |}.

Definition set_types (m : gmap string (gmap string DataTypeFn)) (o : Orm) : Orm :=
  {| opt := opt o; generator := generator o; retagopt := retagopt o; regormtag := regormtag o;
     ignoreopt := ignoreopt o; types := m; globalTypes := globalTypes o;
     global := global o; structs := structs o; stdout := stdout o |}.

Definition set_globalTypes (m : gmap string DataTypeFn) (o : Orm) : Orm :=
  {| opt := opt o; generator := generator o; retagopt := retagopt o; regormtag := regormtag o;
     ignoreopt := ignoreopt o; types := types o; globalTypes := m;
     global := global o; structs := structs o; stdout := stdout o |}.

Definition set_global (g : list ModelOpt) (o : Orm) : Orm :=
  {| opt := opt o; generator := generator o; retagopt := retagopt o; regormtag := regormtag o;
     ignoreopt := ignoreopt o; types := types o; globalTypes := globalTypes o;
     global := g; structs := structs o; stdout := stdout o |}.

Definition set_structs (s : list QueryStructMeta) (o : Orm) : Orm :=
  {| opt := opt o; generator := generator o; retagopt := retagopt o; regormtag := regormtag o;
     ignoreopt := ignoreopt o; types := types o; globalTypes := globalTypes o;
     global := global o; structs := s; stdout := stdout o |}.

(** A call on [o.generator]. *)
Definition genCall (c : GenCall) (o : Orm) : Orm :=
  set_generator (generator o ++ [c]) o.

(** [color.Red(msg)] and the like. *)
Definition print (c : Color) (msg : string) (o : Orm) : Orm :=
  {| opt := opt o; generator := generator o; retagopt := retagopt o; regormtag := regormtag o;
     ignoreopt := ignoreopt o; types := types o; globalTypes := globalTypes o;
     global := global o; structs := structs o; stdout := stdout o ++ [(c, msg)] |}.

(** ** Functional options and the constructor *)

Definition IOrmOption : Type := OrmOption → OrmOption.

Definition WithDB (d : DB) : IOrmOption := λ o,
  {| db := Some d; rename := rename o; ignore := ignore o; retags := retags o;
     reGromTags := reGromTags o; dataType := dataType o; daoTables := daoTables o;
     daoApi := daoApi o |}.

Definition WithRename (r : gmap string string) : IOrmOption := λ o,
  {| db := db o; rename := r; ignore := ignore o; retags := retags o;
     reGromTags := reGromTags o; dataType := dataType o; daoTables := daoTables o;
     daoApi := daoApi o |}.

Definition WithIgnore (i : list string) : IOrmOption := λ o,
  {| db := db o; rename := rename o; ignore := i; retags := retags o;
     reGromTags := reGromTags o; dataType := dataType o; daoTables := daoTables o;
     daoApi := daoApi o |}.

Definition WithRetags (r : list string) : IOrmOption := λ o,
  {| db := db o; rename := rename o; ignore := ignore o; retags := r;
     reGromTags := reGromTags o; dataType := dataType o; daoTables := daoTables o;
     daoApi := daoApi o |}.

Definition WithReGromTags (r : list string) : IOrmOption := λ o,
  {| db := db o; rename := rename o; ignore := ignore o; retags := retags o;
     reGromTags := r; dataType := dataType o; daoTables := daoTables o;
     daoApi := daoApi o |}.

Definition WithDataType (d : list (string * DataTypeFn)) : IOrmOption := λ o,
  {| db := db o; rename := rename o; ignore := ignore o; retags := retags o;
     reGromTags := reGromTags o; dataType := d; daoTables := daoTables o;
     daoApi := daoApi o |}.

Definition WithDaoTables (t : list string) : IOrmOption := λ o,
  {| db := db o; rename := rename o; ignore := ignore o; retags := retags o;
     reGromTags := reGromTags o; dataType := dataType o; daoTables := t;
     daoApi := daoApi o |}.

Definition WithDaoApi (a : list (string * Annotation)) : IOrmOption := λ o,
  {| db := db o; rename := rename o; ignore := ignore o; retags := retags o;
     reGromTags := reGromTags o; dataType := dataType o; daoTables := daoTables o;
     daoApi := a |}.

(** [&OrmOption{}]. *)
Definition zeroOrmOption : OrmOption :=
  {| db := None; rename := ∅; ignore := []; retags := []; reGromTags := [];
     dataType := []; daoTables := []; daoApi := [] |}.

(** [&Orm{opt: opt, retagopt: make(..), ignoreopt: make(..), types: make(..),
    globalTypes: make(..)}]: [regormtag] stays the nil map, which reads as
    the empty one. *)
Definition newOrm (op : OrmOption) : Orm :=
  {| opt := op; generator := []; retagopt := ∅; regormtag := ∅; ignoreopt := ∅;
     types := ∅; globalTypes := ∅; global := []; structs := []; stdout := [] |}.

Definition NewOrmCommand (opts : list IOrmOption) : Orm :=
  newOrm (foldl (λ op o, o op) zeroOrmOption opts).


(** ** [Orm.formatGlobal] *)

(** The error branches are [len(parts) != 3] (or [!= 2]): a [match] on the
    list of segments reads the indexed parts off at once. *)

(** The loop over [o.opt.retags], with the local map [retags]. *)
Fixpoint retagLoop (ds : list string) (o : Orm)
    (retags : gmap string (list (string * string)))
    : Orm * gmap string (list (string * string)) * option string :=
  match ds with
  | [] => (o, retags, None)
  | retag :: ds' =>
      match Split retag "->" with
      | [p0; p1; p2] =>
          if decide (p0 = "*")
          then retagLoop ds'
                 (set_global (global o ++ [FieldJSONTag p1 (p2 +:+ ",omitempty")]) o)
                 retags
          else retagLoop ds' o
                 (<[p0 := default [] (retags !! p0) ++ [(p1, p2 +:+ ",omitempty")]]> retags)
      | _ => (o, retags, Some ("invalid retag format: " +:+ retag))
      end
  end.

(** The loop over [o.opt.reGromTags], with the local map [regormtags].  As
    in the source, the slice that is extended is [retags[parts[0]]], read
    from the JSON retag map of the first loop. *)
Fixpoint regormLoop (ds : list string) (retags : gmap string (list (string * string)))
    (o : Orm) (regormtags : gmap string (list (string * string)))
    : Orm * gmap string (list (string * string)) * option string :=
  match ds with
  | [] => (o, regormtags, None)
  | retag :: ds' =>
      match Split retag "->" with
      | [p0; p1; p2] =>
          if decide (p0 = "*")
          then regormLoop ds' retags
                 (set_global (global o ++ [FieldGORMTag p1 p2]) o) regormtags
          else regormLoop ds' retags o
                 (<[p0 := default [] (retags !! p0) ++ [(p1, p2)]]> regormtags)
      | _ => (o, regormtags, Some ("invalid retag format: " +:+ retag))
      end
  end.

(** The loop over [o.opt.ignore]. *)
Fixpoint ignoreLoop (ds : list string) (o : Orm) : Orm * option string :=
  match ds with
  | [] => (o, None)
  | ign :: ds' =>
      match Split ign "->" with
      | [p0; p1] =>
          let fields := Split p1 "," in
          if decide (p0 = "*")
          then ignoreLoop ds' (set_global (global o ++ [FieldIgnore fields]) o)
          else ignoreLoop ds'
                 (set_ignoreopt
                    (<[p0 := default [] (ignoreopt o !! p0) ++ fields]> (ignoreopt o)) o)
      | _ => (o, Some ("invalid ignore format: " +:+ ign))
      end
  end.

(** The closure handed to [WithFileNameStrategy]. *)
Definition fileNameStrategy (rn : gmap string string) (tableName : string) : string :=
  match rn !! tableName with
  | None => ToLower tableName
  | Some fileName => fileName
  end.

(** The loop over [o.opt.dataType]. *)
Fixpoint dataTypeLoop (kvs : list (string * DataTypeFn)) (o : Orm) : Orm * option string :=
  match kvs with
  | [] => (o, None)
  | (key, typ) :: kvs' =>
      match Split key "->" with
      | [p0; p1] =>
          if decide (p0 = "*")
          then dataTypeLoop kvs' (set_globalTypes (<[p1 := typ]> (globalTypes o)) o)
          else dataTypeLoop kvs'
                 (set_types
                    (<[p0 := <[p1 := typ]> (default ∅ (types o !! p0))]> (types o)) o)
      | _ => (o, Some ("invalid data type mapping format: " +:+ key))
      end
  end.

(** [formatGlobal] returns the receiver as it left it and the error.  The
    map [regormtags] built by the second loop is a local of the source that
    is dropped on return: nothing assigns [o.regormtag].  A nil
    [o.opt.dataType] and an empty one both return nil with nothing done. *)
Definition formatGlobal (o : Orm) : Orm * option string :=
  let '(o1, retags, err) := retagLoop (retags (opt o)) o ∅ in
  match err with
  | Some e => (o1, Some e)
  | None =>
      let o2 := set_retagopt retags o1 in
      let '(o3, regormtags, err) := regormLoop (reGromTags (opt o2)) retags o2 ∅ in
      match err with
      | Some e => (o3, Some e)
      | None =>
          let '(o4, err) := ignoreLoop (ignore (opt o3)) o3 in
          match err with
          | Some e => (o4, Some e)
          | None =>
              let o5 :=
                if decide (0 < size (rename (opt o4)))
                then genCall (WithFileNameStrategy (fileNameStrategy (rename (opt o4)))) o4
                else o4 in
              dataTypeLoop (dataType (opt o5)) o5
          end
      end
  end.

(** ** [Orm.optByTable] and [Orm.genoptByTable] *)

(** [maps.Clone] and [maps.Copy dst src] (entries of [src] overwrite). *)
Definition Clone {V} (m : gmap string V) : gmap string V := m.
Definition Copy {V} (dst src : gmap string V) : gmap string V := src ∪ dst.

Definition optByTable (o : Orm) (table : string) : Orm * list ModelOpt * option string :=
  let opts : list ModelOpt := [] in
  let opts :=
    match ignoreopt o !! table with
    | Some ign => opts ++ [FieldIgnore ign]
    | None => opts
    end in
  let opts :=
    match retagopt o !! table with
    | Some rt => opts ++ ((λ r, FieldJSONTag r.1 r.2) <$> rt)
    | None => opts
    end in
  let opts :=
    match regormtag o !! table with
    | Some rgt => opts ++ ((λ r, FieldGORMTag r.1 r.2) <$> rgt)
    | None => opts
    end in
  let types_t := Clone (globalTypes o) in
  let types_t :=
    match types o !! table with
    | Some tys => Copy types_t tys
    | None => types_t
    end in
  if decide (size types_t = 0)
  then (o, opts, None)
  else (genCall (WithDataTypeMap types_t) o, opts, None).

Definition genoptByTable (o : Orm) (table : string) : Orm :=
  match types o !! table with
  | None => o
  | Some tys =>
      let types_t := Copy (Clone (globalTypes o)) tys in
      if decide (size types_t = 0)
      then o
      else genCall (WithDataTypeMap types_t) o
  end.

(** ** [Orm.model] *)

(** The value returned by [GenerateModel(tableName, opts...)] and by
    [GenerateModelAs(tableName, modelName, opts...)]. *)
Definition metaOf (tableName : string) (modelName : option string) : QueryStructMeta :=
  {| TableName := tableName; ModelStructName := modelName |}.

(** The loop over [tables]; [opts] is the slice declared before the loop.
    [strings.Split] never returns an empty slice, so [vals[0]] exists; the
    first branch stands for the index panic of an empty [vals]. *)
Fixpoint modelLoop (tables : list string) (o : Orm) (opts : list ModelOpt)
    : Orm * list ModelOpt * option string :=
  match tables with
  | [] => (o, opts, None)
  | val :: tables' =>
      match Split val "@" with
      | [] => (o, opts, Some "index out of range")
      | _ :: _ :: _ :: _ =>
          modelLoop tables'
            (print Yellow
               ("Skipping invalid table format: " +:+ val
                +:+ ". Expected format: table@modelName" +:+ nl) o)
            opts
      | vals0 :: rest =>
          let '(o1, tableopt, err) := optByTable o vals0 in
          match err with
          | Some e => (o1, opts, Some e)
          | None =>
              let opts := opts ++ tableopt in
              let o2 := genoptByTable o1 vals0 in
              match rest with
              | [] =>
                  let o3 := genCall (GenerateModel vals0 opts) o2 in
                  modelLoop tables'
                    (set_structs (structs o3 ++ [metaOf vals0 None]) o3) opts
              | vals1 :: _ =>
                  let o3 := genCall (GenerateModelAs vals1 vals0 opts) o2 in
                  modelLoop tables'
                    (set_structs (structs o3 ++ [metaOf vals1 (Some vals0)]) o3) opts
              end
          end
      end
  end.

(** The options every table starts from: the raw [o.opt.ignore] strings
    wrapped in one [FieldIgnore] when there are any, then [o.global]. *)
Definition baseOpts (o : Orm) : list ModelOpt :=
  (if decide (0 < length (ignore (opt o))) then [FieldIgnore (ignore (opt o))] else [])
  ++ global o.

(** [o.opt.db] is checked by [run] before anything else; a nil [db] here is
    the nil dereference of [o.opt.db.Migrator()]. *)
Definition model (o : Orm) (tables : list string) : Orm * option string :=
  let tables_err :=
    if decide (length tables = 0)
    then match db (opt o) with
         | Some d => GetTables d
         | None => Err "nil pointer dereference"
         end
    else Ok tables in
  match tables_err with
  | Err e => (o, Some e)
  | Ok tables =>
      let '(o', _, err) := modelLoop tables o (baseOpts o) in
      (o', err)
  end.

(** ** [Orm.dao] *)

Definition dao (o : Orm) : Orm * option string :=
  if decide (length (structs o) = 0)
  then (o, Some "no structs available for DAO generation")
  else
    let wanted (meta : QueryStructMeta) : bool :=
      bool_decide ("*" ∈ daoTables (opt o))
      || bool_decide (TableName meta ∈ daoTables (opt o)) in
    let structs' := List.filter wanted (structs o) in
    let structs_m : gmap string QueryStructMeta :=
      foldl (λ m meta, <[TableName meta := meta]> m) ∅ structs' in
    if decide (length structs' = 0)
    then (o, Some "no matching structs found for DAO generation")
    else
      let o1 := genCall (ApplyBasic structs') o in
      let o2 :=
        match (list_to_map (daoApi (opt o)) : gmap string Annotation) !! "*" with
        | Some globalAnnotae => genCall (ApplyInterface globalAnnotae structs') o1
        | None => o1
        end in
      (foldl (λ o' '(table, annotae),
                if decide (table = "*") then o'
                else match structs_m !! table with
                     | Some s => genCall (ApplyInterface annotae [s]) o'
                     | None => o'
                     end)
             o2 (daoApi (opt o)),
       None).

(** ** [Orm.exec] and [Orm.run] *)

Definition exec (o : Orm) (args : FlagSet) : Orm * option string :=
  match GetString_style args with
  | Err e => (o, Some e)
  | Ok style =>
      match GetStringArray_tables args with
      | Err e => (o, Some e)
      | Ok tables =>
          let '(o1, err) := model o tables in
          match err with
          | Some e => (o1, Some e)
          | None =>
              if decide (style = "model")
              then (genCall Execute o1, None)
              else
                let '(o2, err) := dao o1 in
                match err with
                | Some e => (o2, Some e)
                | None => (genCall Execute o2, None)
                end
          end
      end
  end.

(** The JSON tag name strategy installed by [run]. *)
Definition jsonTagNameStrategy (columnName : string) : string :=
  columnName +:+ ",omitempty".

(** [gen.NewGenerator] gives a generator on which nothing was called yet. *)
Definition run (o : Orm) (args : FlagSet) : Orm :=
  match db (opt o) with
  | None => print Red (nl +:+ "Error: Database connection is not provided" +:+ nl +:+ nl) o
  | Some _ =>
      let o := set_generator [] o in
      let o := genCall UseDB o in
      let o := genCall (WithJSONTagNameStrategy jsonTagNameStrategy) o in
      let '(o, err) := formatGlobal o in
      match err with
      | Some e =>
          print Red (nl +:+ "Error formatting retags: " +:+ e +:+ nl +:+ nl) o
      | None =>
          let '(o, err) := exec o args in
          match err with
          | Some e =>
              print Red (nl +:+ "Error generating Gorm code: " +:+ e +:+ nl +:+ nl) o
          | None =>
              print Green (nl +:+ "Gorm code generation completed successfully." +:+ nl +:+ nl) o
          end
      end
  end.

End Resolver.

Global Arguments GenCall : clear implicits.
Global Arguments OrmOption : clear implicits.
Global Arguments Orm : clear implicits.
Global Arguments IOrmOption : clear implicits.

(** * Vocabulary of the statements *)

(** The bytes of [s] behind the first [n]. *)
Fixpoint dropBytes (n : nat) (s : string) : string :=
  match n, s with
  | O, _ => s
  | S _, EmptyString => EmptyString
  | S k, String _ s' => dropBytes k s'
  end.

(** The four kinds of directive lists, in the order in which
    [formatGlobal] works through them. *)
Inductive Kind : Type := KRetag | KReGromTag | KIgnore | KDataType.

(** The number of "->"-separated segments a directive of each kind has. *)
Definition segments (k : Kind) : nat :=
  match k with
  | KRetag | KReGromTag => 3
  | KIgnore | KDataType => 2
  end.

(** The text in front of the offending string in the error message. *)
Definition errorPrefix (k : Kind) : string :=
  match k with
  | KRetag | KReGromTag => "invalid retag format: "
  | KIgnore => "invalid ignore format: "
  | KDataType => "invalid data type mapping format: "
  end.

Definition malformed (kd : Kind * string) : bool :=
  negb (Nat.eqb (length (Split kd.2 "->")) (segments kd.1)).

Definition errorOf (kd : Kind * string) : string := errorPrefix kd.1 +:+ kd.2.

(** The first malformed directive of one list, as an error. *)
Definition firstError (k : Kind) (ds : list string) : option string :=
  errorOf <$> List.find malformed (pair k <$> ds).

(** What a well-formed directive says: its scope and its payload. *)
Definition retagEntry (d : string) : option (string * (string * string)) :=
  match Split d "->" with
  | [scope; field; tag] => Some (scope, (field, tag +:+ ",omitempty"))
  | _ => None
  end.

Definition regormEntry (d : string) : option (string * (string * string)) :=
  match Split d "->" with
  | [scope; field; column] => Some (scope, (field, column))
  | _ => None
  end.

Definition ignoreEntry (d : string) : option (string * list string) :=
  match Split d "->" with
  | [scope; fields] => Some (scope, Split fields ",")
  | _ => None
  end.

Definition dataTypeEntry {F : Type} (kv : string * F) : option (string * (string * F)) :=
  match Split kv.1 "->" with
  | [scope; field] => Some (scope, (field, kv.2))
  | _ => None
  end.

(** The entries of the directives in front of the first malformed one:
    those a loop of [formatGlobal] gets to see. *)
Fixpoint parsed {A B : Type} (f : A → option B) (l : list A) : list B :=
  match l with
  | [] => []
  | x :: l' =>
      match f x with
      | Some y => y :: parsed f l'
      | None => []
      end
  end.

(** The payloads of the entries with a given scope, in order. *)
Definition scoped {A : Type} (scope : string) (es : list (string * A)) : list A :=
  omap (λ e, if decide (e.1 = scope) then Some e.2 else None) es.

(** [m[scope] = append(m[scope], l...)] for each entry [(scope, l)] in turn,
    the entries of scope "*" left aside: what the loops of [formatGlobal] do
    to a per-table map of slices. *)
Definition collect {A : Type} (es : list (string * list A)) (m : gmap string (list A))
    : gmap string (list A) :=
  foldl (λ m e, if decide (e.1 = "*") then m
                else <[e.1 := default [] (m !! e.1) ++ e.2]> m) m es.

(** The same for [o.types], whose inner maps are made on first use. *)
Definition collectTypes {V : Type} (es : list (string * (string * V)))
    (m : gmap string (gmap string V)) : gmap string (gmap string V) :=
  foldl (λ m e, if decide (e.1 = "*") then m
                else <[e.1 := <[e.2.1 := e.2.2]> (default ∅ (m !! e.1))]> m) m es.

(** [m[k] = v] done for each binding of [l] in turn. *)
Definition overlay {V : Type} (l : list (string * V)) (m : gmap string V) : gmap string V :=
  foldl (λ m kv, <[kv.1 := kv.2]> m) m l.

(** What [collect] leaves under one key: the slices appended there. *)
Definition extend {A : Type} (cur : option (list A)) (ls : list (list A)) : option (list A) :=
  match ls with
  | [] => cur
  | _ :: _ => Some (default [] cur ++ concat ls)
  end.

(** What [collectTypes] leaves under one key. *)
Definition extendMap {V : Type} (cur : option (gmap string V)) (l : list (string * V))
    : option (gmap string V) :=
  match l with
  | [] => cur
  | _ :: _ => Some (overlay l (default ∅ cur))
  end.

(** A retag entry as the one-element slice that is appended. *)
Definition single {A : Type} (e : string * A) : string * list A := (e.1, [e.2]).

Definition jsonOpt (r : string * string) : ModelOpt := FieldJSONTag r.1 r.2.
Definition gormOpt (r : string * string) : ModelOpt := FieldGORMTag r.1 r.2.

(** The generator call [Orm.model] makes for a table entry [table] or
    [table@modelName]. *)
Definition generateCall {F A : Type} (val : string) (opts : list ModelOpt)
    : option (GenCall F A) :=
  match Split val "@" with
  | [vals0] => Some (GenerateModel vals0 opts)
  | [vals0; vals1] => Some (GenerateModelAs vals1 vals0 opts)
  | _ => None
  end.

(** The calls that make the generator produce something. *)
Definition producing {F A : Type} (c : GenCall F A) : bool :=
  match c with
  | GenerateModel _ _ | GenerateModelAs _ _ _ | ApplyBasic _ | ApplyInterface _ _
  | Execute => true
  | _ => false
  end.

Section Directives.
Context {DataTypeFn Annotation : Type}.

(** All directive strings of a configuration with their kinds, in the order
    in which [formatGlobal] reaches them. *)
Definition directives (op : OrmOption DataTypeFn Annotation) : list (Kind * string) :=
  (pair KRetag <$> retags op) ++ (pair KReGromTag <$> reGromTags op)
  ++ (pair KIgnore <$> ignore op) ++ (pair KDataType <$> (dataType op).*1).

(** The payloads of the directives of one scope, list by list.  The scope
    "*" gives what goes to the global set, a table name what goes to that
    table. *)
Definition retagsOf (op : OrmOption DataTypeFn Annotation) (scope : string)
    : list (string * string) :=
  scoped scope (parsed retagEntry (retags op)).

Definition regormsOf (op : OrmOption DataTypeFn Annotation) (scope : string)
    : list (string * string) :=
  scoped scope (parsed regormEntry (reGromTags op)).

Definition ignoresOf (op : OrmOption DataTypeFn Annotation) (scope : string)
    : list (list string) :=
  scoped scope (parsed ignoreEntry (ignore op)).

Definition typesOf (op : OrmOption DataTypeFn Annotation) (scope : string)
    : list (string * DataTypeFn) :=
  scoped scope (parsed dataTypeEntry (dataType op)).

(** The call on the generator that the rename step of [formatGlobal] makes. *)
Definition renameCalls (op : OrmOption DataTypeFn Annotation)
    : list (GenCall DataTypeFn Annotation) :=
  if decide (0 < size (rename op))
  then [WithFileNameStrategy (fileNameStrategy (rename op))]
  else [].

(** The data-type map last installed on the generator. *)
Definition installedTypes (g : list (GenCall DataTypeFn Annotation))
    : option (gmap string DataTypeFn) :=
  last (omap (λ c, match c with WithDataTypeMap m => Some m | _ => None end) g).

(** The receiver after the j-th loop of [formatGlobal], in closed form:
    after the retag loop, the regrom-tag loop (with [o.retagopt] assigned),
    the ignore loop, and the rename step with the data-type loop. *)
Definition afterRetags (o : Orm DataTypeFn Annotation) : Orm DataTypeFn Annotation :=
  set_global (global o ++ (jsonOpt <$> retagsOf (opt o) "*")) o.

Definition afterRegorms (o : Orm DataTypeFn Annotation) : Orm DataTypeFn Annotation :=
  set_retagopt (collect (single <$> parsed retagEntry (retags (opt o))) ∅)
    (set_global (global (afterRetags o) ++ (gormOpt <$> regormsOf (opt o) "*")) o).

Definition afterIgnores (o : Orm DataTypeFn Annotation) : Orm DataTypeFn Annotation :=
  set_ignoreopt (collect (parsed ignoreEntry (ignore (opt o))) (ignoreopt o))
    (set_global (global (afterRegorms o) ++ (FieldIgnore <$> ignoresOf (opt o) "*"))
       (afterRegorms o)).

Definition afterDataTypes (o : Orm DataTypeFn Annotation) : Orm DataTypeFn Annotation :=
  set_types (collectTypes (parsed dataTypeEntry (dataType (opt o))) (types o))
    (set_globalTypes (overlay (typesOf (opt o) "*") (globalTypes o))
       (set_generator (generator o ++ renameCalls (opt o)) (afterIgnores o))).

(** The options [optByTable] returns, and the receiver it leaves. *)
Definition tableOpts (o : Orm DataTypeFn Annotation) (table : string) : list ModelOpt :=
  (optByTable o table).1.2.

(** The map [optByTable] computes for a table: the global overrides with the
    table's own copied over them. *)
Definition mergedTypes (o : Orm DataTypeFn Annotation) (table : string)
    : gmap string DataTypeFn :=
  Copy (Clone (globalTypes o)) (default ∅ (types o !! table)).

(** Two receivers with the same configuration and the same resolved rules. *)
Definition sameRules (o o' : Orm DataTypeFn Annotation) : Prop :=
  opt o' = opt o ∧ retagopt o' = retagopt o ∧ regormtag o' = regormtag o
  ∧ ignoreopt o' = ignoreopt o ∧ types o' = types o
  ∧ globalTypes o' = globalTypes o ∧ global o' = global o.

(** The options carried by a call that generates a model. *)
Definition callOpts (c : GenCall DataTypeFn Annotation) : option (list ModelOpt) :=
  match c with
  | GenerateModel _ opts | GenerateModelAs _ _ opts => Some opts
  | _ => None
  end.

End Directives.

(** The table name of an entry [table] or [table@modelName]. *)
Definition tableOf (val : string) : string := hd EmptyString (Split val "@").

(** One list sits inside another. *)
Definition infix {A : Type} (l k : list A) : Prop := ∃ l1 l2, k = l1 ++ l ++ l2.

(** ** Sample configurations *)

(** In the samples a [DataTypeFn] is named by the Go type it returns and the
    DAO annotations carry nothing. *)
Definition sampleDB : DB := {| GetTables := Ok [] |}.

Definition modelArgs (tables : list string) : FlagSet :=
  {| GetString_style := Ok "model"; GetStringArray_tables := Ok tables |}.

(** The configuration of [main.go]. *)
Definition mainOrm : Orm string unit :=
  NewOrmCommand
    [WithDB sampleDB;
     WithDataType [("*->timestamp", "time.Time")];
     WithIgnore ["*->created_at,updated_at"];
     WithRename {["user" := "user_base"]};
     WithRetags ["*->created_at->c_date"; "*->updated_at->u_date"];
     WithReGromTags ["*->created_at->-"; "*->updated_at->-"];
     WithDaoTables ["user"; "game"];
     WithDaoApi [("*", ())]].


Definition globalIgnoreOrm : Orm string unit :=
  NewOrmCommand [WithDB sampleDB; WithIgnore ["*->created_at,updated_at"]].

Definition tableRetagOrm : Orm string unit :=
  NewOrmCommand [WithDB sampleDB; WithRetags ["user->created_at->c_date"]].

Definition tableRegormOrm : Orm string unit :=
  NewOrmCommand [WithDB sampleDB; WithReGromTags ["user->created_at->c_date"]].

Definition tableTypeOrm : Orm string unit :=
  NewOrmCommand [WithDB sampleDB; WithDataType [("t1->a", "Y")]].


(** * Vocabulary for the driver *)

(** What [Orm.model] appends to [o.structs] for an entry, and what it prints
    for one: an entry [table] or [table@modelName] gives a model, an entry
    with more than one "@" gives the warning. *)
Definition entryMeta (val : string) : option QueryStructMeta :=
  match Split val "@" with
  | [vals0] => Some {| TableName := vals0; ModelStructName := None |}
  | [vals0; vals1] => Some {| TableName := vals1; ModelStructName := Some vals0 |}
  | _ => None
  end.

Definition entryWarning (val : string) : option (Color * string) :=
  match Split val "@" with
  | _ :: _ :: _ :: _ =>
      Some (Yellow, "Skipping invalid table format: " +:+ val
                    +:+ ". Expected format: table@modelName" +:+ nl)
  | _ => None
  end.

(** The models [Orm.dao] keeps: those of the tables listed in
    [o.opt.daoTables], all of them when "*" is listed. *)
Definition wanted (daoTables : list string) (meta : QueryStructMeta) : bool :=
  bool_decide ("*" ∈ daoTables) || bool_decide (TableName meta ∈ daoTables).

Section DriverVocabulary.
Context {DataTypeFn Annotation : Type}.

Definition isExecute (c : GenCall DataTypeFn Annotation) : bool :=
  match c with Execute => true | _ => false end.

(** The calls [Orm.model] makes, and the calls [Orm.dao] makes. *)
Definition modelCall (c : GenCall DataTypeFn Annotation) : bool :=
  match c with
  | WithDataTypeMap _ | GenerateModel _ _ | GenerateModelAs _ _ _ => true
  | _ => false
  end.

Definition daoCall (c : GenCall DataTypeFn Annotation) : bool :=
  match c with
  | ApplyBasic _ | ApplyInterface _ _ => true
  | _ => false
  end.

(** The models handed over by a call of [Orm.dao]. *)
Definition appliedModels (c : GenCall DataTypeFn Annotation) : list QueryStructMeta :=
  match c with
  | ApplyBasic models | ApplyInterface _ models => models
  | _ => []
  end.

End DriverVocabulary.

(** Further sample configurations: a retag directive with a segment missing
    behind a well-formed wildcard one, and the receiver after the models of
    two tables were generated with the configuration of [main.go]. *)
Definition malformedRetagOrm : Orm string unit :=
  NewOrmCommand [WithDB sampleDB; WithRetags ["*->created_at->c_date"; "user->created_at"]].

Definition generatedOrm : Orm string unit :=
  (model (formatGlobal mainOrm).1 ["user"; "order"]).1.

(** * The [rsa] command (package [encrypt]) *)

From Stdlib Require DecimalString DecimalZ.

(** [strconv.FormatInt(i, 10)], which is also what the verb [%d] prints. *)
Definition FormatInt (i : Z) : string := DecimalString.NilZero.string_of_int (Z.to_int i).

Module encrypt.

(** [RSA]: the values of the flags "format", "encoding", "bits", "out". *)
Record RSA : Type := {
  format : string;
  encoding : string;
  bits : Z;
  outDir : string;
}.

(** [validate]: the three [switch] statements, in their order. *)
Definition validate (r : RSA) : option string :=
  if decide (encoding r = "PEM" ∨ encoding r = "DER") then
    if decide (bits r = 1024 ∨ bits r = 2048 ∨ bits r = 3072 ∨ bits r = 4096)%Z then
      if decide (format r = "PKCS1" ∨ format r = "PKCS8") then None
      else Some ("invalid format: " +:+ format r +:+ ", must be PKCS1 or PKCS8")
    else Some ("invalid bits: " +:+ FormatInt (bits r)
               +:+ ", must be one of 1024, 2048, 3072, 4096")
  else Some ("invalid encoding: " +:+ encoding r +:+ ", must be PEM or DER").

(** [ext]. *)
Definition ext (encoding : string) : string :=
  if decide (encoding = "PEM") then "pem" else "der".

(** The calls made on the operating system and on the [crypto] packages,
    oldest first, and what was printed. *)
Inductive Call : Type :=
  | MkdirAll (path : string) (perm : Z)
  | GenerateKey (bits : Z)
  | WriteFile (name data : string) (perm : Z).

Record World : Type := {
  calls : list Call;
  printed : list (Color * string);
}.

Definition call (c : Call) (w : World) : World :=
  {| calls := calls w ++ [c]; printed := printed w |}.

Definition say (c : Color) (msg : string) (w : World) : World :=
  {| calls := calls w; printed := printed w ++ [(c, msg)] |}.

Section Commands.

(** RSA keys are opaque to the command. *)
Context {PrivateKey PublicKey : Type}.

(** What the operating system and the standard library answer: the error
    of [os.MkdirAll] and [os.WriteFile] (by path), the path made by
    [filepath.Join], the key or error of [rsa.GenerateKey(rand.Reader, bits)],
    [&privateKey.PublicKey], the encodings of [x509] and [pem]. *)
Record Env : Type := {
  mkdirAll : string → option string;
  writeFile : string → option string;
  pathJoin : string → string → string;
  generateKey : Z → result PrivateKey;
  publicKey : PrivateKey → PublicKey;
  MarshalPKCS1PrivateKey : PrivateKey → string;
  MarshalPKCS8PrivateKey : PrivateKey → result string;
  MarshalPKCS1PublicKey : PublicKey → string;
  MarshalPKIXPublicKey : PublicKey → result string;
  EncodeToMemory : string → string → string;
}.

Variable env : Env.

(** [private]. *)
Definition private (r : RSA) (w : World) : World * result PublicKey :=
  let w := call (GenerateKey (bits r)) w in
  match generateKey env (bits r) with
  | Err e => (w, Err ("failed to generate RSA private key: " +:+ e))
  | Ok privateKey =>
      let marshalled : result (string * string) :=
        if decide (format r = "PKCS1")
        then Ok (MarshalPKCS1PrivateKey env privateKey, "RSA PRIVATE KEY")
        else if decide (format r = "PKCS8")
        then match MarshalPKCS8PrivateKey env privateKey with
             | Err e => Err ("failed to marshal PKCS8 private key: " +:+ e)
             | Ok privBytes => Ok (privBytes, "PRIVATE KEY")
             end
        else Err ("unsupported format: " +:+ format r) in
      match marshalled with
      | Err e => (w, Err e)
      | Ok (privBytes, privBlockType) =>
          let encoded : result string :=
            if decide (encoding r = "DER") then Ok privBytes
            else if decide (encoding r = "PEM")
            then Ok (EncodeToMemory env privBlockType privBytes)
            else Err ("unsupported encoding: " +:+ encoding r) in
          match encoded with
          | Err e => (w, Err e)
          | Ok privOut =>
              let privPath := pathJoin env (outDir r) ("private." +:+ ext (encoding r)) in
              let w := call (WriteFile privPath privOut 384) w in
              match writeFile env privPath with
              | Some e => (w, Err ("write private: " +:+ e))
              | None => (w, Ok (publicKey env privateKey))
              end
          end
      end
  end.

(** [public]. *)
Definition public (r : RSA) (pubKey : PublicKey) (w : World) : World * option string :=
  let marshalled : result (string * string) :=
    if decide (format r = "PKCS1")
    then Ok (MarshalPKCS1PublicKey env pubKey, "RSA PUBLIC KEY")
    else if decide (format r = "PKCS8")
    then match MarshalPKIXPublicKey env pubKey with
         | Err e => Err ("failed to marshal PKCS8 public key: " +:+ e)
         | Ok pubBytes => Ok (pubBytes, "PUBLIC KEY")
         end
    else Err ("unsupported format: " +:+ format r) in
  match marshalled with
  | Err e => (w, Some e)
  | Ok (pubBytes, pubBlockType) =>
      let pubOut :=
        if decide (encoding r = "PEM")
        then EncodeToMemory env pubBlockType pubBytes
        else pubBytes in
      let pubPath := pathJoin env (outDir r) ("public." +:+ ext (encoding r)) in
      let w := call (WriteFile pubPath pubOut 420) w in
      match writeFile env pubPath with
      | Some e => (w, Some ("write public: " +:+ e))
      | None => (w, None)
      end
  end.

(** The contents of a key file: the PEM block of the marshalled key for the
    encoding PEM, the marshalled key itself otherwise. *)
Definition pemOrDer (r : RSA) (blockType keyBytes : string) : string :=
  if decide (encoding r = "PEM") then EncodeToMemory env blockType keyBytes else keyBytes.

(** The paths of the two key files. *)
Definition privatePath (r : RSA) : string :=
  pathJoin env (outDir r) ("private." +:+ ext (encoding r)).
Definition publicPath (r : RSA) : string :=
  pathJoin env (outDir r) ("public." +:+ ext (encoding r)).

(** [exec]. *)
Definition exec (r : RSA) (w : World) : World * option string :=
  let w := call (MkdirAll (outDir r) 493) w in
  match mkdirAll env (outDir r) with
  | Some e => (w, Some ("mkdir: " +:+ e))
  | None =>
      match private r w with
      | (w, Err e) => (w, Some e)
      | (w, Ok pubKey) => public r pubKey w
      end
  end.

(** [run]. *)
Definition run (r : RSA) (w : World) : World :=
  match validate r with
  | Some e => say Red ("Error: " +:+ e +:+ " " +:+ nl +:+ nl) w
  | None =>
      match exec r w with
      | (w, Some e) => say Red ("Error: " +:+ e +:+ " " +:+ nl +:+ nl) w
      | (w, None) => say Green ("RSA keys generated successfully!" +:+ nl +:+ nl) w
      end
  end.

End Commands.

(** The defaults of the flags. *)
Definition defaults : RSA :=
  {| format := "PKCS8"; encoding := "PEM"; bits := 2048; outDir := "./out" |}.

End encrypt.

(** Sample inputs of the [rsa] command: flags with a key length that
    [validate] rejects, flags that write below "out", a machine that has
    done nothing yet, a machine on which every call succeeds (keys and
    their encodings are strings that say what they stand for) and one on
    which the output directory cannot be made. *)
Definition shortKey : encrypt.RSA :=
  {| encrypt.format := "PKCS8"; encrypt.encoding := "PEM";
     encrypt.bits := 512; encrypt.outDir := "out" |}.

Definition outKeys : encrypt.RSA :=
  {| encrypt.format := "PKCS8"; encrypt.encoding := "PEM";
     encrypt.bits := 2048; encrypt.outDir := "out" |}.

Definition idle : encrypt.World := {| encrypt.calls := []; encrypt.printed := [] |}.

Definition sampleEnv : encrypt.Env (PrivateKey:=string) (PublicKey:=string) :=
  {| encrypt.mkdirAll := λ _, None;
     encrypt.writeFile := λ _, None;
     encrypt.pathJoin := λ dir name, dir +:+ "/" +:+ name;
     encrypt.generateKey := λ _, Ok "key";
     encrypt.publicKey := λ key, "public " +:+ key;
     encrypt.MarshalPKCS1PrivateKey := λ key, "pkcs1 " +:+ key;
     encrypt.MarshalPKCS8PrivateKey := λ key, Ok ("pkcs8 " +:+ key);
     encrypt.MarshalPKCS1PublicKey := λ key, "pkcs1 " +:+ key;
     encrypt.MarshalPKIXPublicKey := λ key, Ok ("pkix " +:+ key);
     encrypt.EncodeToMemory := λ blockType bytes, "pem " +:+ blockType +:+ ": " +:+ bytes |}.

Definition deniedEnv : encrypt.Env (PrivateKey:=string) (PublicKey:=string) :=
  {| encrypt.mkdirAll := λ _, Some "permission denied";
     encrypt.writeFile := encrypt.writeFile sampleEnv;
     encrypt.pathJoin := encrypt.pathJoin sampleEnv;
     encrypt.generateKey := encrypt.generateKey sampleEnv;
     encrypt.publicKey := encrypt.publicKey sampleEnv;
     encrypt.MarshalPKCS1PrivateKey := encrypt.MarshalPKCS1PrivateKey sampleEnv;
     encrypt.MarshalPKCS8PrivateKey := encrypt.MarshalPKCS8PrivateKey sampleEnv;
     encrypt.MarshalPKCS1PublicKey := encrypt.MarshalPKCS1PublicKey sampleEnv;
     encrypt.MarshalPKIXPublicKey := encrypt.MarshalPKIXPublicKey sampleEnv;
     encrypt.EncodeToMemory := encrypt.EncodeToMemory sampleEnv |}.

(** * [types.DbTime] *)

Module dbtime.

(** [time.Time] as the instant it denotes: [t.sec()], the seconds since
    January 1 of year 1, 00:00:00 UTC, and [t.nsec()], the nanoseconds
    within the second (the location and the monotonic clock reading do not
    matter to [DbTime]). *)
Record Time : Type := {
  sec : Z;
  nsec : Z;
}.

(** A result of [int64] arithmetic: the value wrapped around. *)
Definition int64 (z : Z) : Z := ((z + 2 ^ 63) mod 2 ^ 64 - 2 ^ 63)%Z.

(** [internalToUnix], the seconds from January 1, 1970 back to year 1. *)
Definition internalToUnix : Z := (-62135596800)%Z.

(** [t.Unix()] and [t.UnixNano()]. *)
Definition Unix (t : Time) : Z := int64 (sec t + internalToUnix).

Definition UnixNano (t : Time) : Z :=
  int64 (int64 (int64 (sec t + internalToUnix) * 1000000000) + nsec t).

(** [var zeroTime time.Time]. *)
Definition zeroTime : Time := {| sec := 0; nsec := 0 |}.

(** [DbTime struct { time.Time }]. *)
Record DbTime : Type := { Time_ : Time }.

(** A dynamic value ([any], [driver.Value]): nil, a [time.Time], or
    something else, of which only what the verb [%v] prints matters. *)
Inductive Value : Type :=
  | VNil
  | VTime (t : Time)
  | VOther (shown : string).

(** The text of a value under [%v], as far as [Scan] can print one. *)
Definition shown (v : Value) : string :=
  match v with
  | VNil => "<nil>"
  | VOther s => s
  | VTime _ => EmptyString
  end.

(** [DbTime.MarshalJSON]. *)
Definition MarshalJSON (t : DbTime) : result string :=
  let seconds := Unix (Time_ t) in
  Ok (FormatInt seconds).

(** [DbTime.Value]. *)
Definition Value_ (t : DbTime) : result Value :=
  if decide (UnixNano (Time_ t) = UnixNano zeroTime) then Ok VNil
  else Ok (VTime (Time_ t)).


End dbtime.



(** * Properties *)

(** ** Facts about [strings.Split] *)

Example Split_retag : Split "user->created_at->c_date" "->" = ["user"; "created_at"; "c_date"].
Proof. reflexivity. Qed.

Example Split_no_sep : Split "user-created_at" "->" = ["user-created_at"].
Proof. reflexivity. Qed.

Example Split_adjacent : Split "a->->b->" "->" = ["a"; EmptyString; "b"; EmptyString].
Proof. reflexivity. Qed.

Example Split_overlap : Split "a-->b" "->" = ["a-"; "b"].
Proof. reflexivity. Qed.

Example Split_fields : Split "created_at,updated_at" "," = ["created_at"; "updated_at"].
Proof. reflexivity. Qed.

(** The configuration of [main.go]: everything is global, and a run over the
    table "user" generates one model with the global options. *)
Example main_formatGlobal :
  (formatGlobal mainOrm).2 = None
  ∧ global (formatGlobal mainOrm).1
    = [FieldJSONTag "created_at" "c_date,omitempty";
       FieldJSONTag "updated_at" "u_date,omitempty";
       FieldGORMTag "created_at" "-"; FieldGORMTag "updated_at" "-";
       FieldIgnore ["created_at"; "updated_at"]]
  ∧ map_to_list (globalTypes (formatGlobal mainOrm).1) = [("timestamp", "time.Time")]
  ∧ tableOpts (formatGlobal mainOrm).1 "user" = [].
Proof. by vm_compute. Qed.

Example main_run_calls :
  omap callOpts (generator (run mainOrm (modelArgs ["user"])))
  = [[FieldIgnore ["*->created_at,updated_at"];
      FieldJSONTag "created_at" "c_date,omitempty";
      FieldJSONTag "updated_at" "u_date,omitempty";
      FieldGORMTag "created_at" "-"; FieldGORMTag "updated_at" "-";
      FieldIgnore ["created_at"; "updated_at"]]].
Proof. by vm_compute. Qed.

Section SplitFacts.

Lemma append_cons c (s t : string) : String c s +:+ t = String c (s +:+ t).
Proof. reflexivity. Qed.

Lemma append_empty_r (s : string) : s +:+ EmptyString = s.
Proof. induction s as [|c s IH]; [done|]. by rewrite append_cons, IH. Qed.

Lemma append_assoc (s t u : string) : (s +:+ t) +:+ u = s +:+ t +:+ u.
Proof. induction s as [|c s IH]; [done|]. by rewrite !append_cons, IH. Qed.

Lemma HasPrefix_app s p : HasPrefix s p = true → ∃ r, s = p +:+ r.
Proof.
  revert s. induction p as [|a p IH]; intros s H.
  - by exists s.
  - destruct s as [|c s]; simpl in H; [done|].
    case_decide; [subst c|done].
    destruct (IH _ H) as [r ->]. by exists r.
Qed.

Lemma HasPrefix_append p r : HasPrefix (p +:+ r) p = true.
Proof.
  induction p as [|a p IH]; [done|].
  rewrite append_cons. simpl. by rewrite decide_True.
Qed.



Lemma dropBytes_append p r : dropBytes (String.length p) (p +:+ r) = r.
Proof. induction p as [|a p IH]; [by destruct r|]. by rewrite append_cons. Qed.

Lemma splitFrom_nonempty sep k cur s : splitFrom sep k cur s ≠ [].
Proof.
  revert k cur. induction s as [|c s IH]; intros k cur; [done|].
  simpl. destruct k; [|apply IH].
  destruct (HasPrefix _ _); [done|apply IH].
Qed.

Lemma Split_nonempty s sep : sep ≠ EmptyString → Split s sep ≠ [].
Proof. destruct sep; [done|]. intros _. apply splitFrom_nonempty. Qed.

Lemma Join_cons e l sep : l ≠ [] → Join (e :: l) sep = e +:+ sep +:+ Join l sep.
Proof. by destruct l. Qed.

(** Joining the segments gives back what was scanned. *)
Lemma Join_splitFrom a sep' k cur s :
  Join (splitFrom (String a sep') k cur s) (String a sep') = cur +:+ dropBytes k s.
Proof.
  revert k cur. induction s as [|c s IH]; intros k cur.
  - simpl. destruct k; by rewrite append_empty_r.
  - cbn [splitFrom]. destruct k as [|k]; [|apply IH].
    destruct (HasPrefix (String c s) (String a sep')) eqn:Hp.
    + rewrite Join_cons by apply splitFrom_nonempty.
      rewrite IH. apply HasPrefix_app in Hp as [r Hr].
      rewrite append_cons in Hr. injection Hr as -> ->.
      cbn [String.length]. rewrite Nat.sub_succ, Nat.sub_0_r.
      rewrite dropBytes_append. by rewrite append_cons.
    + rewrite IH. cbn [dropBytes]. rewrite append_assoc. by destruct s.
Qed.

Lemma Join_Split s sep : sep ≠ EmptyString → Join (Split s sep) sep = s.
Proof. destruct sep as [|a sep']; [done|]. intros _. apply Join_splitFrom. Qed.

(** Two strings with the same segments are the same string. *)
Lemma Split_inj s1 s2 sep : sep ≠ EmptyString → Split s1 sep = Split s2 sep → s1 = s2.
Proof.
  intros Hsep Heq. rewrite <-(Join_Split s1 sep), <-(Join_Split s2 sep) by done.
  by rewrite Heq.
Qed.

End SplitFacts.

(** ** The loops of [formatGlobal] *)

(** Reads the entry [t] of a directive, an application of [f], off the segments
    found in [E]. *)
Tactic Notation "entry_by" reference(f) constr(t) hyp(E) :=
  let He := fresh "He" in
  assert (He := eq_refl t); unfold f in He at 2; cbn [fst snd] in He;
  rewrite E in He; rewrite ?He; clear He.

Section LoopFacts.
Context {DataTypeFn Annotation : Type}.
Local Abbreviation Orm := (Orm DataTypeFn Annotation).
Implicit Types (o : Orm) (ds : list string).

Lemma set_global_id o : set_global (global o) o = o.
Proof. by destruct o. Qed.

Lemma extend_app {A} (cur : option (list A)) ls1 ls2 :
  extend (extend cur ls1) ls2 = extend cur (ls1 ++ ls2).
Proof.
  destruct ls1 as [|l1 ls1]; [done|]. destruct ls2 as [|l2 ls2].
  - by rewrite app_nil_r.
  - cbn [extend app default]. f_equal.
    change (l1 :: ls1 ++ l2 :: ls2) with ((l1 :: ls1) ++ l2 :: ls2).
    by rewrite concat_app, app_assoc.
Qed.

Lemma overlay_app {V} (l1 l2 : list (string * V)) m :
  overlay (l1 ++ l2) m = overlay l2 (overlay l1 m).
Proof. apply foldl_app. Qed.

Lemma extendMap_app {V} (cur : option (gmap string V)) l1 l2 :
  extendMap (extendMap cur l1) l2 = extendMap cur (l1 ++ l2).
Proof.
  destruct l1 as [|e1 l1]; [done|]. destruct l2 as [|e2 l2].
  - by rewrite app_nil_r.
  - cbn [extendMap app default]. f_equal.
    change (e1 :: l1 ++ e2 :: l2) with ((e1 :: l1) ++ e2 :: l2).
    by rewrite overlay_app.
Qed.

Lemma scoped_cons {A} T (e : string * A) es :
  scoped T (e :: es) = (if decide (e.1 = T) then [e.2] else []) ++ scoped T es.
Proof. unfold scoped. cbn [omap list_omap]. by case_decide. Qed.

Lemma scoped_single {A} T (es : list (string * A)) :
  scoped T (single <$> es) = (λ r, [r]) <$> scoped T es.
Proof.
  induction es as [|e es IH]; [done|].
  rewrite fmap_cons, !scoped_cons, fmap_app, IH. cbn [single fst snd].
  by case_decide.
Qed.

Lemma collect_cons {A} (e : string * list A) es m :
  collect (e :: es) m
  = collect es (if decide (e.1 = "*") then m
                else <[e.1 := default [] (m !! e.1) ++ e.2]> m).
Proof. done. Qed.

Lemma collectTypes_cons {V} (e : string * (string * V)) es m :
  collectTypes (e :: es) m
  = collectTypes es (if decide (e.1 = "*") then m
                     else <[e.1 := <[e.2.1 := e.2.2]> (default ∅ (m !! e.1))]> m).
Proof. done. Qed.

(** [collect] never files anything under "*", and under a table name it
    appends the slices of that scope. *)
Lemma collect_wildcard {A} (es : list (string * list A)) m :
  collect es m !! "*" = m !! "*".
Proof.
  revert m. induction es as [|e es IH]; intros m; [done|].
  rewrite collect_cons, IH.
  case_decide; [done|]. by rewrite lookup_insert_ne.
Qed.

Lemma collect_lookup {A} (es : list (string * list A)) m T :
  T ≠ "*" → collect es m !! T = extend (m !! T) (scoped T es).
Proof.
  intros HT. revert m. induction es as [|e es IH]; intros m; [done|].
  rewrite collect_cons, IH, scoped_cons, <-extend_app.
  f_equal. case_decide as He.
  - rewrite decide_False by congruence. done.
  - case_decide as HeT.
    + subst T. rewrite lookup_insert_eq. cbn. by rewrite app_nil_r.
    + by rewrite lookup_insert_ne.
Qed.

Lemma collectTypes_wildcard {V} (es : list (string * (string * V))) m :
  collectTypes es m !! "*" = m !! "*".
Proof.
  revert m. induction es as [|e es IH]; intros m; [done|].
  rewrite collectTypes_cons, IH.
  case_decide; [done|]. by rewrite lookup_insert_ne.
Qed.

Lemma collectTypes_lookup {V} (es : list (string * (string * V))) m T :
  T ≠ "*" → collectTypes es m !! T = extendMap (m !! T) (scoped T es).
Proof.
  intros HT. revert m. induction es as [|e es IH]; intros m; [done|].
  rewrite collectTypes_cons, IH, scoped_cons, <-extendMap_app.
  f_equal. case_decide as He.
  - rewrite decide_False by congruence. done.
  - case_decide as HeT.
    + subst T. by rewrite lookup_insert_eq.
    + by rewrite lookup_insert_ne.
Qed.

Lemma retagEntry_malformed d : malformed (KRetag, d) = bool_decide (retagEntry d = None).
Proof.
  unfold malformed, retagEntry. cbn [fst snd segments].
  by destruct (Split d "->") as [|p0 [|p1 [|p2 [|p3 ?]]]].
Qed.

Lemma regormEntry_malformed d : malformed (KReGromTag, d) = bool_decide (regormEntry d = None).
Proof.
  unfold malformed, regormEntry. cbn [fst snd segments].
  by destruct (Split d "->") as [|p0 [|p1 [|p2 [|p3 ?]]]].
Qed.

Lemma ignoreEntry_malformed d : malformed (KIgnore, d) = bool_decide (ignoreEntry d = None).
Proof.
  unfold malformed, ignoreEntry. cbn [fst snd segments].
  by destruct (Split d "->") as [|p0 [|p1 [|p2 ?]]].
Qed.

Lemma dataTypeEntry_malformed key (typ : DataTypeFn) :
  malformed (KDataType, key) = bool_decide (dataTypeEntry (key, typ) = None).
Proof.
  unfold malformed, dataTypeEntry. cbn [fst snd segments].
  by destruct (Split key "->") as [|p0 [|p1 [|p2 ?]]].
Qed.

(** Each loop in closed form: the wildcard entries go to [o.global], the
    others to the per-table map, and the first malformed directive stops
    the loop with its error. *)
Lemma retagLoop_spec ds o m :
  retagLoop ds o m
  = (set_global (global o ++ (jsonOpt <$> scoped "*" (parsed retagEntry ds))) o,
     collect (single <$> parsed retagEntry ds) m,
     firstError KRetag ds).
Proof.
  revert o m. induction ds as [|d ds IH]; intros o m.
  - cbn. by rewrite app_nil_r, set_global_id.
  - cbn [retagLoop parsed]. unfold firstError. cbn [fmap list_fmap List.find].
    rewrite retagEntry_malformed.
    destruct (Split d "->") as [|p0 [|p1 [|p2 [|p3 ?]]]] eqn:E;
      entry_by retagEntry (retagEntry d) E;
      try (cbn; by rewrite app_nil_r, set_global_id).
    rewrite bool_decide_false by done. rewrite fmap_cons, scoped_cons.
    rewrite collect_cons. cbn [single fst snd].
    case_decide as Hp; [subst p0|]; rewrite IH; [|done].
    cbn. by rewrite <-app_assoc.
Qed.

Lemma regormLoop_spec ds retags o rg :
  ∃ rg', regormLoop ds retags o rg
         = (set_global (global o ++ (gormOpt <$> scoped "*" (parsed regormEntry ds))) o,
            rg', firstError KReGromTag ds).
Proof.
  revert o rg. induction ds as [|d ds IH]; intros o rg.
  - exists rg. cbn. by rewrite app_nil_r, set_global_id.
  - cbn [regormLoop parsed]. unfold firstError. cbn [fmap list_fmap List.find].
    rewrite regormEntry_malformed.
    destruct (Split d "->") as [|p0 [|p1 [|p2 [|p3 ?]]]] eqn:E;
      entry_by regormEntry (regormEntry d) E;
      try (exists rg; cbn; by rewrite app_nil_r, set_global_id).
    rewrite bool_decide_false by done. case_decide as Hp; [subst p0|].
    + destruct (IH (set_global (global o ++ [FieldGORMTag p1 p2]) o) rg) as (rg' & ->).
      exists rg'. rewrite scoped_cons. cbn. by rewrite <-app_assoc.
    + destruct (IH o (<[p0 := default [] (retags !! p0) ++ [(p1, p2)]]> rg)) as (rg' & ->).
      exists rg'. rewrite scoped_cons. cbn [fst snd]. by rewrite decide_False by done.
Qed.

Lemma ignoreLoop_spec ds o :
  ignoreLoop ds o
  = (set_ignoreopt (collect (parsed ignoreEntry ds) (ignoreopt o))
       (set_global (global o ++ (FieldIgnore <$> scoped "*" (parsed ignoreEntry ds))) o),
     firstError KIgnore ds).
Proof.
  revert o. induction ds as [|d ds IH]; intros o.
  - cbn. rewrite app_nil_r. by destruct o.
  - cbn [ignoreLoop parsed]. unfold firstError. cbn [fmap list_fmap List.find].
    rewrite ignoreEntry_malformed.
    destruct (Split d "->") as [|p0 [|p1 [|p2 ?]]] eqn:E;
      entry_by ignoreEntry (ignoreEntry d) E;
      try (cbn; rewrite app_nil_r; by destruct o).
    rewrite bool_decide_false by done. rewrite scoped_cons.
    rewrite collect_cons. cbn [fst snd].
    case_decide as Hp; [subst p0|]; rewrite IH; [|done].
    cbn. by rewrite <-app_assoc.
Qed.

Lemma dataTypeLoop_spec (kvs : list (string * DataTypeFn)) o :
  dataTypeLoop kvs o
  = (set_types (collectTypes (parsed dataTypeEntry kvs) (types o))
       (set_globalTypes
          (overlay (scoped "*" (parsed dataTypeEntry kvs)) (globalTypes o)) o),
     firstError KDataType kvs.*1).
Proof.
  revert o. induction kvs as [|[key typ] kvs IH]; intros o.
  - cbn. by destruct o.
  - cbn [dataTypeLoop parsed]. unfold firstError. cbn [fmap list_fmap List.find fst].
    rewrite (dataTypeEntry_malformed key typ).
    destruct (Split key "->") as [|p0 [|p1 [|p2 ?]]] eqn:E;
      entry_by dataTypeEntry (dataTypeEntry (key, typ)) E;
      try (cbn; by destruct o).
    rewrite bool_decide_false by done. rewrite scoped_cons.
    rewrite collectTypes_cons. cbn [fst snd].
    case_decide as Hp; [subst p0|]; by rewrite IH.
Qed.

End LoopFacts.

(** ** [formatGlobal] as a whole *)

Section FormatGlobalFacts.
Context {DataTypeFn Annotation : Type}.
Local Abbreviation Orm := (Orm DataTypeFn Annotation).
Implicit Types (o : Orm).

Lemma find_app {A} (f : A → bool) l1 l2 :
  List.find f (l1 ++ l2)
  = match List.find f l1 with Some x => Some x | None => List.find f l2 end.
Proof. induction l1 as [|x l1 IH]; [done|]. cbn. by destruct (f x). Qed.

(** The outcome of [formatGlobal], loop by loop: which error it returns
    and what the receiver looks like at that point. *)
Lemma formatGlobal_unfold o :
  formatGlobal o
  = match firstError KRetag (retags (opt o)) with
    | Some e => (afterRetags o, Some e)
    | None =>
      match firstError KReGromTag (reGromTags (opt o)) with
      | Some e => (afterRegorms o, Some e)
      | None =>
        match firstError KIgnore (ignore (opt o)) with
        | Some e => (afterIgnores o, Some e)
        | None => (afterDataTypes o, firstError KDataType (dataType (opt o)).*1)
        end
      end
    end.
Proof.
  unfold formatGlobal. rewrite retagLoop_spec.
  destruct (firstError KRetag (retags (opt o))); [done|].
  cbv zeta.
  edestruct (regormLoop_spec (DataTypeFn:=DataTypeFn) (Annotation:=Annotation))
    as (rg & ->).
  destruct (firstError KReGromTag _); [done|].
  rewrite ignoreLoop_spec.
  destruct (firstError KIgnore _); [done|].
  rewrite dataTypeLoop_spec.
  unfold afterDataTypes, renameCalls. cbn.
  case_decide; [done|]. by rewrite app_nil_r.
Qed.

Lemma find_fmap {A B} (g : A → B) (f : B → bool) l :
  List.find f (g <$> l) = g <$> List.find (f ∘ g) l.
Proof. induction l as [|x l IH]; [done|]. cbn. by destruct (f (g x)). Qed.


Lemma find_none_Forall {A} (f : A → bool) l :
  List.find f l = None ↔ Forall (λ y, f y = false) l.
Proof.
  induction l as [|x l IH]; cbn; [by split; [constructor|]|].
  destruct (f x) eqn:Hx.
  - split; [done|]. inversion 1; congruence.
  - rewrite IH. split; [by constructor|]. by inversion 1.
Qed.

Lemma firstError_find k ds :
  firstError k ds = errorOf <$> List.find malformed (pair k <$> ds).
Proof. done. Qed.

Lemma firstError_None k ds :
  firstError k ds = None ↔ Forall (λ d, malformed (k, d) = false) ds.
Proof.
  unfold firstError. rewrite fmap_None, find_none_Forall, Forall_fmap. done.
Qed.

(** The error of [formatGlobal] is that of the first malformed directive in
    processing order, and there is none when all are well-formed. *)
Lemma formatGlobal_error o :
  (formatGlobal o).2 = errorOf <$> List.find malformed (directives (opt o)).
Proof.
  rewrite formatGlobal_unfold. unfold directives, firstError.
  rewrite !find_app.
  destruct (List.find malformed (pair KRetag <$> _)); [done|].
  destruct (List.find malformed (pair KReGromTag <$> _)); [done|].
  destruct (List.find malformed (pair KIgnore <$> _)); [done|].
  done.
Qed.

Lemma formatGlobal_ok o o' :
  formatGlobal o = (o', None) →
  o' = afterDataTypes o
  ∧ Forall (λ kd, malformed kd = false) (directives (opt o)).
Proof.
  intros H. split.
  - rewrite formatGlobal_unfold in H.
    destruct (firstError KRetag _); [done|].
    destruct (firstError KReGromTag _); [done|].
    destruct (firstError KIgnore _); [done|]. congruence.
  - apply find_none_Forall. pose proof (formatGlobal_error o) as He.
    rewrite H in He. cbn in He. symmetry in He. by apply fmap_None in He.
Qed.

(** What [formatGlobal] leaves alone whatever the outcome, and what it may
    call on the generator. *)
Lemma formatGlobal_frame o :
  opt (formatGlobal o).1 = opt o
  ∧ stdout (formatGlobal o).1 = stdout o
  ∧ structs (formatGlobal o).1 = structs o
  ∧ regormtag (formatGlobal o).1 = regormtag o
  ∧ ∃ calls, generator (formatGlobal o).1 = generator o ++ calls
             ∧ Forall (λ c, producing c = false) calls.
Proof.
  rewrite formatGlobal_unfold.
  destruct (firstError KRetag _); [|destruct (firstError KReGromTag _);
    [|destruct (firstError KIgnore _)]]; cbn; split_and!; try done;
    try (exists []; by rewrite app_nil_r).
  exists (renameCalls (opt o)). split; [done|].
  unfold renameCalls. case_decide; repeat constructor.
Qed.

End FormatGlobalFacts.

(** ** Entries and where they come from *)

Section EntryFacts.
Context {DataTypeFn Annotation : Type}.
Local Abbreviation Orm := (Orm DataTypeFn Annotation).
Local Abbreviation OrmOption := (OrmOption DataTypeFn Annotation).
Implicit Types (o : Orm) (op : OrmOption).

Lemma elem_of_parsed {A B} (f : A → option B) l e :
  e ∈ parsed f l → ∃ x, x ∈ l ∧ f x = Some e.
Proof.
  induction l as [|x l IH]; cbn; [by intros ?%elem_of_nil|].
  destruct (f x) as [y|] eqn:Hx; [|by intros ?%elem_of_nil].
  intros [->|He]%elem_of_cons.
  - exists x. split; [left|done].
  - destruct (IH He) as (x' & ? & ?). exists x'. split; [by right|done].
Qed.

Lemma parsed_elem_of {A B} (f : A → option B) l x e :
  Forall (λ y, is_Some (f y)) l → x ∈ l → f x = Some e → e ∈ parsed f l.
Proof.
  intros Hall Hx He. induction Hall as [|y l [e' Hy] _ IH]; [by apply elem_of_nil in Hx|].
  cbn. rewrite Hy. apply elem_of_cons in Hx as [Hxy|Hx].
  - subst y. assert (e' = e) as -> by congruence. left.
  - right. by apply IH.
Qed.

Lemma elem_of_scoped {A} T (es : list (string * A)) r :
  r ∈ scoped T es ↔ (T, r) ∈ es.
Proof.
  unfold scoped. rewrite list_elem_of_omap. split.
  - intros ([s r'] & Hin & Hs). cbn in Hs. case_decide; [|done]. by simplify_eq.
  - intros Hin. exists (T, r). split; [done|]. cbn. by rewrite decide_True.
Qed.

(** Well-formed directives have entries. *)
Lemma wellformed_retag d : malformed (KRetag, d) = false → is_Some (retagEntry d).
Proof.
  rewrite retagEntry_malformed. intros H%bool_decide_eq_false.
  by destruct (retagEntry d).
Qed.

Lemma wellformed_regorm d : malformed (KReGromTag, d) = false → is_Some (regormEntry d).
Proof.
  rewrite regormEntry_malformed. intros H%bool_decide_eq_false.
  by destruct (regormEntry d).
Qed.

Lemma wellformed_ignore d : malformed (KIgnore, d) = false → is_Some (ignoreEntry d).
Proof.
  rewrite ignoreEntry_malformed. intros H%bool_decide_eq_false.
  by destruct (ignoreEntry d).
Qed.

Lemma wellformed_dataType (kv : string * DataTypeFn) :
  malformed (KDataType, kv.1) = false → is_Some (dataTypeEntry kv).
Proof.
  destruct kv as [key typ]. cbn [fst]. rewrite (dataTypeEntry_malformed key typ).
  intros H%bool_decide_eq_false. by destruct (dataTypeEntry (key, typ)).
Qed.

(** The four lists of a configuration whose directives are all
    well-formed. *)
Lemma directives_wellformed op :
  Forall (λ kd, malformed kd = false) (directives op) →
  Forall (λ d, is_Some (retagEntry d)) (retags op)
  ∧ Forall (λ d, is_Some (regormEntry d)) (reGromTags op)
  ∧ Forall (λ d, is_Some (ignoreEntry d)) (ignore op)
  ∧ Forall (λ kv, is_Some (dataTypeEntry kv)) (dataType op).
Proof.
  unfold directives. rewrite !Forall_app, !Forall_fmap.
  intros (H1 & H2 & H3 & H4). split_and!.
  - eapply Forall_impl; [exact H1|]. intros d. apply wellformed_retag.
  - eapply Forall_impl; [exact H2|]. intros d. apply wellformed_regorm.
  - eapply Forall_impl; [exact H3|]. intros d. apply wellformed_ignore.
  - eapply Forall_impl; [exact H4|]. intros kv. apply wellformed_dataType.
Qed.

(** A data-type key is determined by its scope and field. *)
Lemma dataTypeEntry_key (kv : string * DataTypeFn) scope field typ :
  dataTypeEntry kv = Some (scope, (field, typ)) →
  kv = (scope +:+ "->" +:+ field, typ).
Proof.
  destruct kv as [key typ']. unfold dataTypeEntry. cbn [fst snd].
  destruct (Split key "->") as [|p0 [|p1 [|p2 ?]]] eqn:E; try done.
  intros [= -> -> ->]. f_equal.
  rewrite <-(Join_Split key "->") by done. by rewrite E.
Qed.

(** [overlay] binds each key to its last binding of the list; with distinct
    keys, to its only one. *)
Lemma overlay_lookup_notin {V} (l : list (string * V)) m k :
  k ∉ l.*1 → overlay l m !! k = m !! k.
Proof.
  revert m. induction l as [|[k' v] l IH]; intros m Hk; [done|].
  rewrite fmap_cons, not_elem_of_cons in Hk. destruct Hk as [Hne Hk].
  change (overlay ((k', v) :: l) m) with (overlay l (<[k' := v]> m)).
  rewrite IH by done. by rewrite lookup_insert_ne.
Qed.

Lemma overlay_lookup_NoDup {V} (l : list (string * V)) m k v :
  NoDup l.*1 → (k, v) ∈ l → overlay l m !! k = Some v.
Proof.
  revert m. induction l as [|[k' v'] l IH]; intros m Hnd Hin; [by apply elem_of_nil in Hin|].
  rewrite fmap_cons in Hnd. apply NoDup_cons in Hnd as [Hk' Hnd].
  change (overlay ((k', v') :: l) m) with (overlay l (<[k' := v']> m)).
  apply elem_of_cons in Hin as [[= -> ->]|Hin].
  - rewrite overlay_lookup_notin by done. apply lookup_insert_eq.
  - by apply IH.
Qed.


(** Distinct keys give distinct fields within one scope. *)
Lemma typesOf_NoDup op T :
  NoDup (dataType op).*1 → NoDup (typesOf op T).*1.
Proof.
  unfold typesOf. induction (dataType op) as [|kv kvs IH]; intros Hnd; [constructor|].
  rewrite fmap_cons in Hnd. apply NoDup_cons in Hnd as [Hkv Hnd].
  cbn [parsed]. destruct (dataTypeEntry kv) as [[scope [field typ]]|] eqn:He; [|constructor].
  rewrite scoped_cons. cbn [fst snd]. case_decide as Hs; [subst scope|by apply IH].
  cbn. apply NoDup_cons. split; [|by apply IH].
  intros Hin. apply Hkv.
  apply list_elem_of_fmap in Hin as ([f' typ'] & Hf & Hin). cbn in Hf. subst f'.
  apply elem_of_scoped, elem_of_parsed in Hin as (kv' & Hkv' & He').
  apply dataTypeEntry_key in He, He'. subst kv kv'.
  apply list_elem_of_fmap. by exists (T +:+ "->" +:+ field, typ').
Qed.

End EntryFacts.

(** ** [optByTable], [genoptByTable] and the loop of [model] *)

Section ModelFacts.
Context {DataTypeFn Annotation : Type}.
Local Abbreviation Orm := (Orm DataTypeFn Annotation).
Local Abbreviation GenCall := (GenCall DataTypeFn Annotation).
Implicit Types (o : Orm) (opts : list ModelOpt).

Lemma sameRules_refl o : sameRules o o.
Proof. by repeat split. Qed.

Lemma sameRules_trans o1 o2 o3 : sameRules o1 o2 → sameRules o2 o3 → sameRules o1 o3.
Proof. unfold sameRules. intros ? ?. destruct_and!. split_and!; congruence. Qed.

Lemma tableOpts_sameRules o o' T : sameRules o o' → tableOpts o' T = tableOpts o T.
Proof.
  intros (_ & Hr & Hg & Hi & _). unfold tableOpts, optByTable.
  rewrite Hr, Hg, Hi. by repeat case_decide.
Qed.

(** [optByTable] returns no error, and leaves the receiver as it was up to
    one [WithDataTypeMap] call, made with the merged map when that is not
    empty. *)
Lemma optByTable_spec o T :
  optByTable o T
  = (if decide (size (mergedTypes o T) = 0) then o
     else genCall (WithDataTypeMap (mergedTypes o T)) o,
     tableOpts o T, None).
Proof.
  unfold tableOpts, mergedTypes, optByTable, Copy, Clone.
  destruct (types o !! T); cbn [default]; [|rewrite (left_id_L ∅ (∪))];
    by destruct (decide _).
Qed.

Lemma genoptByTable_spec o T :
  genoptByTable o T
  = match types o !! T with
    | None => o
    | Some _ => if decide (size (mergedTypes o T) = 0) then o
                else genCall (WithDataTypeMap (mergedTypes o T)) o
    end.
Proof. unfold genoptByTable, mergedTypes. by destruct (types o !! T). Qed.

(** The table wins where both maps have the key. *)
Lemma mergedTypes_lookup o T k :
  mergedTypes o T !! k
  = match types o !! T ≫= (.!! k) with
    | Some typ => Some typ
    | None => globalTypes o !! k
    end.
Proof.
  unfold mergedTypes, Copy, Clone. rewrite lookup_union.
  destruct (types o !! T) as [tys|]; cbn.
  - destruct (tys !! k), (globalTypes o !! k); done.
  - rewrite lookup_empty. by destruct (globalTypes o !! k).
Qed.

(** The receiver after the resolving part of one iteration. *)
Lemma resolve_sameRules o T :
  sameRules o (genoptByTable (optByTable o T).1.1 T).
Proof.
  rewrite optByTable_spec, genoptByTable_spec. cbn [fst].
  repeat case_decide; cbn; destruct (types o !! T); repeat case_decide; by repeat split.
Qed.

Lemma resolve_generator o T :
  ∃ calls, generator (genoptByTable (optByTable o T).1.1 T) = generator o ++ calls
           ∧ Forall (λ c, callOpts c = None) calls
           ∧ stdout (genoptByTable (optByTable o T).1.1 T) = stdout o
           ∧ structs (genoptByTable (optByTable o T).1.1 T) = structs o.
Proof.
  rewrite optByTable_spec, genoptByTable_spec. cbn [fst].
  case_decide; cbn; destruct (types o !! T); repeat case_decide; cbn;
    first [ exists []; by rewrite app_nil_r
          | eexists [_]; split; [done|by repeat constructor]
          | eexists [_; _]; rewrite <-app_assoc; split; [done|by repeat constructor] ].
Qed.

(** An entry with at most one "@" is resolved and generated. *)
Lemma modelLoop_valid val tables o opts :
  (length (Split val "@") ≤ 2)%nat →
  ∃ o1 calls call,
    modelLoop (val :: tables) o opts
    = modelLoop tables o1 (opts ++ tableOpts o (tableOf val))
    ∧ sameRules o o1
    ∧ stdout o1 = stdout o
    ∧ generator o1 = generator o ++ calls ++ [call]
    ∧ Forall (λ c, callOpts c = None) calls
    ∧ generateCall val (opts ++ tableOpts o (tableOf val)) = Some call.
Proof.
  intros Hlen. cbn [modelLoop]. unfold generateCall, tableOf.
  pose proof (Split_nonempty val "@" ltac:(done)) as Hne.
  destruct (Split val "@") as [|t [|m [|x rest]]]; [done| | |cbn in Hlen; lia];
    cbn [hd]; pose proof (resolve_sameRules o t) as Hsame;
    destruct (resolve_generator o t) as (calls & Hgen & Hcalls & Hout & _);
    rewrite optByTable_spec in *; cbn [fst snd] in *.
  - eexists _, calls, _. split; [reflexivity|].
    split; [exact Hsame|]. cbn. by rewrite Hgen, <-app_assoc.
  - eexists _, calls, _. split; [reflexivity|].
    split; [exact Hsame|]. cbn. by rewrite Hgen, <-app_assoc.
Qed.

(** An entry with more than one "@" is skipped with a warning. *)
Lemma modelLoop_invalid val tables o opts :
  (2 < length (Split val "@"))%nat →
  modelLoop (val :: tables) o opts
  = modelLoop tables
      (print Yellow ("Skipping invalid table format: " +:+ val
                     +:+ ". Expected format: table@modelName" +:+ nl) o) opts.
Proof.
  intros Hlen. cbn [modelLoop].
  destruct (Split val "@") as [|t [|m [|x rest]]]; cbn in Hlen; first [lia|done].
Qed.

(** The loop never fails; it leaves the rules alone, only appends to the
    option slice, and every model it generates carries the options the
    loop started with. *)
Lemma modelLoop_spec tables o opts :
  ∃ o' extra calls,
    modelLoop tables o opts = (o', opts ++ extra, None)
    ∧ sameRules o o'
    ∧ generator o' = generator o ++ calls
    ∧ Forall (λ c, ∀ co, callOpts c = Some co → opts `prefix_of` co) calls.
Proof.
  revert o opts. induction tables as [|val tables IH]; intros o opts.
  - exists o, [], []. rewrite !app_nil_r. split_and!; first [done|apply sameRules_refl].
  - destruct (decide (length (Split val "@") ≤ 2)%nat) as [Hlen|Hlen].
    + destruct (modelLoop_valid val tables o opts Hlen)
        as (o1 & calls1 & call & -> & Hsame1 & _ & Hgen1 & Hcalls1 & Hcall).
      destruct (IH o1 (opts ++ tableOpts o (tableOf val)))
        as (o' & extra & calls & -> & Hsame & Hgen & Hcalls).
      exists o', (tableOpts o (tableOf val) ++ extra), (calls1 ++ [call] ++ calls).
      rewrite <-app_assoc. split; [done|].
      split; [by eapply sameRules_trans|].
      split; [by rewrite Hgen, Hgen1, <-!app_assoc|].
      rewrite !Forall_app. split_and!.
      * eapply Forall_impl; [exact Hcalls1|]. intros c Hc co. by rewrite Hc.
      * constructor; [|constructor]. intros co Hco.
        unfold generateCall in Hcall.
        destruct (Split val "@") as [|t [|m [|x rest]]]; simplify_eq; cbn in Hco;
          simplify_eq; by eexists.
      * eapply Forall_impl; [exact Hcalls|]. intros c Hc co Hco.
        etrans; [|by apply Hc]. by eexists.
    + rewrite modelLoop_invalid by lia.
      destruct (IH (print Yellow ("Skipping invalid table format: " +:+ val
                     +:+ ". Expected format: table@modelName" +:+ nl) o) opts)
        as (o' & extra & calls & -> & Hsame & Hgen & Hcalls).
      exists o', extra, calls. by split_and!.
Qed.

Lemma modelLoop_app l1 l2 o opts :
  modelLoop (l1 ++ l2) o opts
  = modelLoop l2 (modelLoop l1 o opts).1.1 (modelLoop l1 o opts).1.2.
Proof.
  revert o opts. induction l1 as [|val l1 IH]; intros o opts; [done|].
  rewrite <-app_comm_cons. cbn [modelLoop].
  pose proof (Split_nonempty val "@" ltac:(done)) as Hne.
  destruct (Split val "@") as [|t [|m [|x rest]]]; [done|..];
    rewrite ?optByTable_spec; cbn [fst snd]; apply IH.
Qed.

(** The run up to and including a valid entry ends with the call that
    generates it, made with the option slice as it then stands. *)
Lemma modelLoop_snoc l val o opts :
  (length (Split val "@") ≤ 2)%nat →
  ∃ o1 opts1 o2 calls call,
    modelLoop l o opts = (o1, opts1, None)
    ∧ sameRules o o1
    ∧ opts `prefix_of` opts1
    ∧ modelLoop (l ++ [val]) o opts = (o2, opts1 ++ tableOpts o (tableOf val), None)
    ∧ generator o2 = generator o1 ++ calls ++ [call]
    ∧ generateCall val (opts1 ++ tableOpts o (tableOf val)) = Some call.
Proof.
  intros Hlen.
  destruct (modelLoop_spec l o opts) as (o1 & extra & calls1 & Hl & Hsame & _).
  destruct (modelLoop_valid val [] o1 (opts ++ extra) Hlen)
    as (o2 & calls & call & Hv & _ & _ & Hgen & _ & Hcall).
  rewrite (tableOpts_sameRules o o1) in Hv, Hcall by done.
  exists o1, (opts ++ extra), o2, calls, call.
  split_and!; try done; [by eexists|].
  by rewrite modelLoop_app, Hl.
Qed.

End ModelFacts.

(** ** The rules a fresh receiver ends up with *)

Section ResolvedFacts.
Context {DataTypeFn Annotation : Type}.
Local Abbreviation Orm := (Orm DataTypeFn Annotation).
Local Abbreviation OrmOption := (OrmOption DataTypeFn Annotation).
Local Abbreviation GenCall := (GenCall DataTypeFn Annotation).
Implicit Types (o : Orm) (op : OrmOption) (g : list GenCall).

(** The entry of a directive, read back as segments. *)
Lemma retagEntry_Some d scope r :
  retagEntry d = Some (scope, r) →
  ∃ tag, Split d "->" = [scope; r.1; tag] ∧ r.2 = tag +:+ ",omitempty".
Proof.
  unfold retagEntry. destruct (Split d "->") as [|p0 [|p1 [|p2 [|p3 ?]]]]; try done.
  intros [= <- <-]. by exists p2.
Qed.

Lemma regormEntry_Some d scope r :
  regormEntry d = Some (scope, r) → Split d "->" = [scope; r.1; r.2].
Proof.
  unfold regormEntry. destruct (Split d "->") as [|p0 [|p1 [|p2 [|p3 ?]]]]; try done.
  by intros [= <- <-].
Qed.

Lemma ignoreEntry_Some d scope fs :
  ignoreEntry d = Some (scope, fs) →
  ∃ fields, Split d "->" = [scope; fields] ∧ fs = Split fields ",".
Proof.
  unfold ignoreEntry. destruct (Split d "->") as [|p0 [|p1 [|p2 ?]]]; try done.
  intros [= <- <-]. by exists p1.
Qed.


Lemma extend_None_Some {A} (ls : list (list A)) l :
  extend None ls = Some l → l = concat ls ∧ ls ≠ [].
Proof. destruct ls; [done|]. cbn. by intros [= <-]. Qed.

Lemma extendMap_None_Some {V} (es : list (string * V)) m :
  extendMap None es = Some m → m = overlay es ∅ ∧ es ≠ [].
Proof. destruct es; [done|]. cbn. by intros [= <-]. Qed.

Lemma concat_singletons {A} (l : list A) : concat ((λ r, [r]) <$> l) = l.
Proof. induction l as [|x l IH]; [done|]. cbn. by rewrite IH. Qed.

(** The rules after a successful [formatGlobal] on a receiver that came
    from [NewOrmCommand], whatever was called on its generator before. *)
Lemma formatGlobal_fresh op g o' :
  formatGlobal (set_generator g (newOrm op)) = (o', None) →
  opt o' = op
  ∧ global o' = (jsonOpt <$> retagsOf op "*") ++ (gormOpt <$> regormsOf op "*")
                ++ (FieldIgnore <$> ignoresOf op "*")
  ∧ retagopt o' = collect (single <$> parsed retagEntry (retags op)) ∅
  ∧ regormtag o' = ∅
  ∧ ignoreopt o' = collect (parsed ignoreEntry (ignore op)) ∅
  ∧ globalTypes o' = overlay (typesOf op "*") ∅
  ∧ types o' = collectTypes (parsed dataTypeEntry (dataType op)) ∅
  ∧ generator o' = g ++ renameCalls op
  ∧ Forall (λ kd, malformed kd = false) (directives op).
Proof.
  intros [-> Hwf]%formatGlobal_ok. cbn in *. by rewrite <-app_assoc.
Qed.

(** Per table: the slices under a table name are those of the directives
    scoped to it, and none is filed under "*". *)
Lemma retagopt_fresh op g o' T :
  formatGlobal (set_generator g (newOrm op)) = (o', None) →
  retagopt o' !! T
  = if decide (T = "*") then None
    else match retagsOf op T with [] => None | l => Some l end.
Proof.
  intros (_ & _ & -> & _)%formatGlobal_fresh. case_decide as HT; [subst T|].
  - by rewrite collect_wildcard.
  - rewrite collect_lookup, scoped_single by done. rewrite lookup_empty.
    unfold retagsOf. destruct (scoped T _) as [|r l]; [done|].
    cbn [fmap list_fmap extend default app]. f_equal.
    exact (concat_singletons (r :: l)).
Qed.

Lemma ignoreopt_fresh op g o' T :
  formatGlobal (set_generator g (newOrm op)) = (o', None) →
  ignoreopt o' !! T
  = if decide (T = "*") then None
    else match ignoresOf op T with [] => None | ls => Some (concat ls) end.
Proof.
  intros (_ & _ & _ & _ & -> & _)%formatGlobal_fresh. case_decide as HT; [subst T|].
  - by rewrite collect_wildcard.
  - rewrite collect_lookup by done. rewrite lookup_empty.
    unfold ignoresOf. by destruct (scoped T _).
Qed.

Lemma types_fresh op g o' T :
  formatGlobal (set_generator g (newOrm op)) = (o', None) →
  types o' !! T
  = if decide (T = "*") then None
    else match typesOf op T with [] => None | l => Some (overlay l ∅) end.
Proof.
  intros (_ & _ & _ & _ & _ & _ & -> & _)%formatGlobal_fresh.
  case_decide as HT; [subst T|].
  - by rewrite collectTypes_wildcard.
  - rewrite collectTypes_lookup by done. rewrite lookup_empty.
    unfold typesOf. by destruct (scoped T _).
Qed.

End ResolvedFacts.

Section OutcomeFacts.
Context {DataTypeFn Annotation : Type}.
Local Abbreviation Orm := (Orm DataTypeFn Annotation).
Local Abbreviation OrmOption := (OrmOption DataTypeFn Annotation).
Local Abbreviation GenCall := (GenCall DataTypeFn Annotation).
Implicit Types (o : Orm) (op : OrmOption) (g : list GenCall).

(** The options of a table after a successful [formatGlobal]: one
    [FieldIgnore] with all the ignored fields of the table when there are
    any, then its JSON retags; never a GORM tag. *)
Lemma tableOpts_fresh op g o' T :
  formatGlobal (set_generator g (newOrm op)) = (o', None) →
  tableOpts o' T
  = if decide (T = "*") then []
    else match ignoresOf op T with [] => [] | ls => [FieldIgnore (concat ls)] end
         ++ (jsonOpt <$> retagsOf op T).
Proof.
  intros H. unfold tableOpts, optByTable.
  rewrite (ignoreopt_fresh op g o' T H), (retagopt_fresh op g o' T H).
  destruct (formatGlobal_fresh op g o' H) as (_ & _ & _ & -> & _).
  rewrite lookup_empty.
  destruct (decide (size _ = 0)); cbn [fst snd]; (destruct (decide (T = "*")); [done|]);
    by destruct (ignoresOf op T), (retagsOf op T).
Qed.

(** Whatever the outcome of [formatGlobal] on a receiver that came from
    [NewOrmCommand]: the JSON retags of [o.global] are the wildcard retag
    directives read so far, [o.retagopt] is still empty or already the
    resolved map, and [o.regormtag] is empty. *)
Lemma formatGlobal_any op g :
  let o' := (formatGlobal (set_generator g (newOrm op))).1 in
  (∃ Gs Is, global o' = (jsonOpt <$> retagsOf op "*") ++ (gormOpt <$> Gs)
                         ++ (FieldIgnore <$> Is))
  ∧ (retagopt o' = ∅
     ∨ retagopt o' = collect (single <$> parsed retagEntry (retags op)) ∅)
  ∧ regormtag o' = ∅
  ∧ (ignoreopt o' = ∅
     ∨ ignoreopt o' = collect (parsed ignoreEntry (ignore op)) ∅).
Proof.
  cbv zeta. rewrite formatGlobal_unfold. cbn [opt set_generator newOrm].
  destruct (firstError KRetag _); [|destruct (firstError KReGromTag _);
    [|destruct (firstError KIgnore _)]]; cbn; (split_and!; [|auto..]).
  - exists [], []. by rewrite !app_nil_r.
  - exists (regormsOf op "*"), []. by rewrite app_nil_r.
  - exists (regormsOf op "*"), (ignoresOf op "*"). by rewrite <-app_assoc.
  - exists (regormsOf op "*"), (ignoresOf op "*"). by rewrite <-app_assoc.
Qed.

(** [dao] and [exec] only add calls to the generator. *)
Lemma dao_generator o : ∃ calls, generator (dao o).1 = generator o ++ calls.
Proof.
  unfold dao. case_decide; [exists []; by rewrite app_nil_r|].
  cbv zeta. case_decide; [exists []; by rewrite app_nil_r|]. cbn [fst].
  set (f := λ (o' : Orm) '(table, annotae), _).
  assert (Hstep : ∀ o1 x, ∃ calls, generator (f o1 x) = generator o1 ++ calls).
  { intros o1 [t a]. unfold f.
    destruct (decide (t = "*")); [exists []; by rewrite app_nil_r|].
    destruct (_ !! t); [by eexists|exists []; by rewrite app_nil_r]. }
  assert (Hf : ∀ l o1, ∃ calls, generator (foldl f o1 l) = generator o1 ++ calls).
  { induction l as [|x l IH]; intros o1; [exists []; by rewrite app_nil_r|].
    cbn [foldl]. destruct (IH (f o1 x)) as (calls & ->).
    destruct (Hstep o1 x) as (calls' & ->). rewrite <-app_assoc. by eexists. }
  clearbody f.
  match goal with |- ∃ calls, generator (foldl f ?o2 ?l) = _ =>
    destruct (Hf l o2) as (calls & ->) end.
  destruct (_ !! "*"); cbn; rewrite <-?app_assoc; by eexists.
Qed.

Lemma model_generator o tables :
  ∃ calls, generator (model o tables).1 = generator o ++ calls
           ∧ Forall (λ c, ∀ co, callOpts c = Some co → baseOpts o `prefix_of` co) calls.
Proof.
  unfold model.
  destruct (if decide (length tables = 0) then _ else _) as [ts|e];
    [|exists []; by rewrite app_nil_r].
  destruct (modelLoop_spec ts o (baseOpts o)) as (o' & extra & calls & -> & _ & Hgen & Hc).
  by exists calls.
Qed.

Lemma exec_generator o args : ∃ calls, generator (exec o args).1 = generator o ++ calls.
Proof.
  unfold exec. destruct (GetString_style args); [|exists []; by rewrite app_nil_r].
  destruct (GetStringArray_tables args) as [ts|]; [|exists []; by rewrite app_nil_r].
  destruct (model_generator o ts) as (calls & Hm & _).
  destruct (model o ts) as [o1 [e|]]; cbn [fst] in *; [by eexists|].
  case_decide; [cbn; rewrite Hm, <-app_assoc; by eexists|].
  destruct (dao_generator o1) as (calls' & Hd).
  destruct (dao o1) as [o2 [e|]]; cbn [fst generator genCall set_generator] in *;
    rewrite Hd, Hm, <-?app_assoc; by eexists.
Qed.

(** With a database, [run] starts by setting up a new generator with the
    database and the JSON tag name strategy. *)
Lemma run_generator o args d0 :
  db (opt o) = Some d0 →
  ∃ calls, generator (run o args)
           = [UseDB; WithJSONTagNameStrategy jsonTagNameStrategy] ++ calls.
Proof.
  intros Hdb. unfold run. rewrite Hdb.
  set (o1 := genCall _ (genCall UseDB (set_generator [] o))).
  destruct (formatGlobal_frame o1) as (_ & _ & _ & _ & calls & Hgen & _).
  destruct (formatGlobal o1) as [o2 [e|]]; cbn [fst] in *; [by exists calls|].
  destruct (exec_generator o2 args) as (calls' & He).
  destruct (exec o2 args) as [o3 [e|]]; cbn [fst generator print] in *;
    rewrite He, Hgen, <-app_assoc; by eexists.
Qed.

End OutcomeFacts.

(** * The claims *)

Section Claims.
Context {DataTypeFn Annotation : Type}.
Local Abbreviation Orm := (Orm DataTypeFn Annotation).
Local Abbreviation OrmOption := (OrmOption DataTypeFn Annotation).
Local Abbreviation GenCall := (GenCall DataTypeFn Annotation).
Implicit Types (o : Orm) (op : OrmOption) (g : list GenCall).



(** The general half of C6: the field list of an ignore directive is split
    on commas, and the fields go together into one rule: a rule of its own
    in the global set for the scope "*", the one rule of the table
    otherwise. *)
Lemma ignore_fields_split op g o' d scope fields :
  formatGlobal (set_generator g (newOrm op)) = (o', None) →
  d ∈ ignore op →
  Split d "->" = [scope; fields] →
  if decide (scope = "*")
  then FieldIgnore (Split fields ",") ∈ global o'
  else ∃ l1 l2, ignoreopt o' !! scope = Some (l1 ++ Split fields "," ++ l2)
                ∧ FieldIgnore (l1 ++ Split fields "," ++ l2) ∈ tableOpts o' scope.
Proof.
  intros Hfg Hd Hs.
  destruct (formatGlobal_fresh op g o' Hfg)
    as (Hopt & Hglobal & _ & Hrg & _ & Hgt & _ & _ & Hwf).
  destruct (directives_wellformed op Hwf) as (_ & _ & Hw3 & _).
  assert (Hin : Split fields "," ∈ ignoresOf op scope).
  { apply elem_of_scoped, (parsed_elem_of ignoreEntry _ d); [done..|].
    unfold ignoreEntry. by rewrite Hs. }
  case_decide as Hscope; [subst scope|].
  - rewrite Hglobal, !elem_of_app. right. right. by apply list_elem_of_fmap_2.
  - apply list_elem_of_split in Hin as (a & b & Hab).
    exists (concat a), (concat b).
    rewrite (tableOpts_fresh op g o' scope Hfg), (ignoreopt_fresh op g o' scope Hfg).
    rewrite !decide_False by done. rewrite Hab.
    assert (concat (a ++ Split fields "," :: b)
            = concat a ++ Split fields "," ++ concat b) as Hc
      by (by rewrite concat_app).
    destruct a; cbn [app] in *; rewrite <-Hc; (split; [done|]);
      apply elem_of_cons; by left.
Qed.


(** C9: the option slice of [model] is not reset between tables.  For two
    entries at positions i < j that are generated (at most one "@" each),
    the run up to the j-th entry ends with the generator call for that
    entry; the call stays in the trace of the whole run, and its options
    contain the options that [optByTable] returned for the i-th entry. *)
Theorem C9_options_accumulate_across_tables o pre vi mid vj post :
  (length (Split vi "@") ≤ 2)%nat →
  (length (Split vj "@") ≤ 2)%nat →
  ∃ oi optsi oj optsj call rest,
    modelLoop pre o (baseOpts o) = (oi, optsi, None)
    ∧ modelLoop (pre ++ vi :: mid ++ [vj]) o (baseOpts o) = (oj, optsj, None)
    ∧ last (generator oj) = Some call
    ∧ generateCall vj optsj = Some call
    ∧ generator (model o (pre ++ vi :: mid ++ vj :: post)).1 = generator oj ++ rest
    ∧ infix (optByTable oi (tableOf vi)).1.2 optsj.
Proof.
  intros Hi Hj.
  destruct (modelLoop_spec pre o (baseOpts o)) as (oi & ei & ci & Hpre & Hsi & _).
  destruct (modelLoop_snoc (pre ++ vi :: mid) vj o (baseOpts o) Hj)
    as (o1 & opts1 & oj & calls & call & Hl & Hs1 & _ & Hsnoc & Hgen & Hcall).
  exists oi, (baseOpts o ++ ei), oj, (opts1 ++ tableOpts o (tableOf vj)), call.
  assert (Hopts1 : ∃ k, opts1 = (baseOpts o ++ ei) ++ tableOpts oi (tableOf vi) ++ k).
  { rewrite modelLoop_app, Hpre in Hl. cbn [fst snd] in Hl.
    destruct (modelLoop_valid vi mid oi (baseOpts o ++ ei) Hi)
      as (o2 & ? & ? & Hv & _). rewrite Hv in Hl.
    destruct (modelLoop_spec mid o2 ((baseOpts o ++ ei) ++ tableOpts oi (tableOf vi)))
      as (o3 & k & ? & Hmid & _). rewrite Hmid in Hl. injection Hl as _ <-.
    exists k. by rewrite <-app_assoc. }
  destruct Hopts1 as [k Hk].
  assert (Hfull : pre ++ vi :: mid ++ vj :: post
                  = ((pre ++ vi :: mid) ++ [vj]) ++ post).
  { by rewrite <-!app_assoc. }
  assert (Htrunc : pre ++ vi :: mid ++ [vj] = (pre ++ vi :: mid) ++ [vj]).
  { by rewrite <-app_assoc. }
  destruct (modelLoop_spec post oj (opts1 ++ tableOpts o (tableOf vj)))
    as (oend & ? & rest & Hpost & _ & Hrest & _).
  exists rest. split_and!.
  - done.
  - by rewrite Htrunc.
  - rewrite Hgen, app_assoc. apply last_snoc.
  - done.
  - unfold model. rewrite decide_False by (destruct pre; cbn; lia).
    rewrite Hfull, modelLoop_app, Hsnoc. cbn [fst snd]. by rewrite Hpost.
  - exists (baseOpts o ++ ei), (k ++ tableOpts o (tableOf vj)).
    unfold tableOpts in *. rewrite Hk. by rewrite <-!app_assoc.
Qed.

(** C10: every JSON retag of the resolver carries the suffix ",omitempty".
    Whatever [formatGlobal] returns, a JSON tag in [o.global] or among the
    options of a table is the tag of a retag directive followed by
    ",omitempty"; when it succeeds, every retag directive has its rule with
    that tag, in [o.global] for the scope "*" and among the options of its
    table otherwise.  The JSON tag name strategy that [run] installs on the
    generator appends ",omitempty" to the column name as well. *)
Theorem C10_json_tags_end_in_omitempty op g :
  (∀ column t, FieldJSONTag column t ∈ global (formatGlobal (set_generator g (newOrm op))).1 →
     ∃ d tag, d ∈ retags op ∧ Split d "->" = ["*"; column; tag]
              ∧ t = tag +:+ ",omitempty")
  ∧ (∀ T column t,
       FieldJSONTag column t ∈ tableOpts (formatGlobal (set_generator g (newOrm op))).1 T →
       ∃ d tag, d ∈ retags op ∧ Split d "->" = [T; column; tag]
                ∧ t = tag +:+ ",omitempty")
  ∧ (∀ o' d scope field tag,
       formatGlobal (set_generator g (newOrm op)) = (o', None) →
       d ∈ retags op → Split d "->" = [scope; field; tag] →
       FieldJSONTag field (tag +:+ ",omitempty")
       ∈ (if decide (scope = "*") then global o' else tableOpts o' scope))
  ∧ (∀ columnName, jsonTagNameStrategy columnName = columnName +:+ ",omitempty")
  ∧ (∀ args d0, db op = Some d0 →
       WithJSONTagNameStrategy jsonTagNameStrategy
       ∈ generator (run (set_generator g (newOrm op)) args)).
Proof.
  split_and!.
  - intros column t Hin.
    destruct (formatGlobal_any op g) as ((Gs & Is & Hg) & _). rewrite Hg in Hin.
    rewrite !elem_of_app in Hin. destruct Hin as [Hin|[Hin|Hin]];
      apply list_elem_of_fmap in Hin as (r & Hr & Hin); [|done..].
    injection Hr as -> ->.
    apply elem_of_scoped, elem_of_parsed in Hin as (d & Hd & He).
    apply retagEntry_Some in He as (tag & ? & ?). by exists d, tag.
  - intros T column t Hin.
    destruct (formatGlobal_any op g) as (_ & Hr & Hrg & _).
    unfold tableOpts, optByTable in Hin. rewrite Hrg, lookup_empty in Hin.
    assert (∃ l, retagopt (formatGlobal (set_generator g (newOrm op))).1 !! T = Some l
                 ∧ (column, t) ∈ l) as (l & Hl & Hct).
    { destruct (decide (size _ = 0)); cbn [fst snd] in Hin;
        destruct (retagopt _ !! T) as [l|]; destruct (ignoreopt _ !! T);
        rewrite ?elem_of_app in Hin; cbn in Hin;
        repeat match goal with
               | H : _ ∨ _ |- _ => destruct H as [H|H]
               | H : _ ∈ [_] |- _ => apply list_elem_of_singleton in H; try done
               | H : _ ∈ [] |- _ => by apply elem_of_nil in H
               | H : FieldJSONTag _ _ ∈ _ <$> _ |- _ =>
                   apply list_elem_of_fmap in H as ([c' t'] & [= -> ->] & H)
               end; by exists l. }
    destruct Hr as [Hr|Hr]; rewrite Hr in Hl; [by rewrite lookup_empty in Hl|].
    destruct (decide (T = "*")) as [->|HT]; [by rewrite collect_wildcard in Hl|].
    rewrite collect_lookup, scoped_single, lookup_empty in Hl by done.
    apply extend_None_Some in Hl as [-> _]. rewrite concat_singletons in Hct.
    apply elem_of_scoped, elem_of_parsed in Hct as (d & Hd & He).
    apply retagEntry_Some in He as (tag & ? & ?). by exists d, tag.
  - intros o' d scope field tag Hfg Hd Hs.
    destruct (formatGlobal_fresh op g o' Hfg) as (_ & Hglobal & _ & _ & _ & _ & _ & _ & Hwf).
    destruct (directives_wellformed op Hwf) as (Hw1 & _).
    assert (Hin : (field, tag +:+ ",omitempty") ∈ retagsOf op scope).
    { apply elem_of_scoped, (parsed_elem_of retagEntry _ d); [done..|].
      unfold retagEntry. by rewrite Hs. }
    case_decide as Hscope; [subst scope|].
    + rewrite Hglobal, !elem_of_app. left.
      by apply (list_elem_of_fmap_2' jsonOpt _ (field, tag +:+ ",omitempty")).
    + rewrite (tableOpts_fresh op g o' scope Hfg), decide_False by done.
      apply elem_of_app. right.
      by apply (list_elem_of_fmap_2' jsonOpt _ (field, tag +:+ ",omitempty")).
  - done.
  - intros args d0 Hdb.
    destruct (run_generator (set_generator g (newOrm op)) args d0 Hdb) as (calls & ->).
    apply elem_of_app. left. apply elem_of_cons. right. apply elem_of_cons. by left.
Qed.

(** What does hold for a table that no directive names: [optByTable] has
    no option for it, and when it is the first table generated its model
    gets the base options and nothing else. *)
Lemma scoped_unmatched {A} T (es : list (string * A)) :
  (∀ e, e ∈ es → e.1 ≠ T) → scoped T es = [].
Proof.
  induction es as [|e es IH]; intros H; [done|].
  rewrite scoped_cons, decide_False by (apply H; left).
  apply IH. intros e' He'. apply H. by right.
Qed.

Lemma tableOpts_unmatched op g o' T :
  formatGlobal (set_generator g (newOrm op)) = (o', None) →
  (∀ d, d ∈ retags op ++ ignore op → hd EmptyString (Split d "->") ≠ T) →
  tableOpts o' T = [].
Proof.
  intros Hfg Hno. rewrite (tableOpts_fresh op g o' T Hfg). case_decide; [done|].
  assert (retagsOf op T = []) as ->.
  { apply scoped_unmatched. intros [s r] (d & Hd & He)%elem_of_parsed.
    apply retagEntry_Some in He as (tag & Hs & _). cbn.
    specialize (Hno d). rewrite Hs in Hno. apply Hno, elem_of_app. by left. }
  assert (ignoresOf op T = []) as ->; [|done].
  apply scoped_unmatched. intros [s r] (d & Hd & He)%elem_of_parsed.
  apply ignoreEntry_Some in He as (fields & Hs & _). cbn.
  specialize (Hno d). rewrite Hs in Hno. apply Hno, elem_of_app. by right.
Qed.

Lemma first_table_gets_base_options o val tables :
  (length (Split val "@") ≤ 2)%nat →
  tableOpts o (tableOf val) = [] →
  ∃ calls call rest,
    generator (model o (val :: tables)).1 = generator o ++ calls ++ [call] ++ rest
    ∧ Forall (λ c, callOpts c = None) calls
    ∧ generateCall val (baseOpts o) = Some call.
Proof.
  intros Hlen Hno. unfold model. rewrite decide_False by (cbn; lia).
  destruct (modelLoop_valid val tables o (baseOpts o) Hlen)
    as (o1 & calls & call & Hv & _ & _ & Hgen & Hcalls & Hcall).
  rewrite Hno, app_nil_r in Hv, Hcall. rewrite Hv.
  destruct (modelLoop_spec tables o1 (baseOpts o)) as (o2 & ? & rest & -> & _ & Hrest & _).
  exists calls, call, rest. cbn [fst]. by rewrite Hrest, Hgen, <-!app_assoc.
Qed.

End Claims.

(** C6: an ignore directive [scope->field1,field2] is split on commas into
    its fields, which go together into one rule (the general statement is
    [ignore_fields_split]); the directive "*->created_at,updated_at" gives
    exactly one global rule, which ignores both [created_at] and
    [updated_at]. *)
Theorem C6_ignore_fields_split_on_commas :
  (∀ (F A : Type) (op : OrmOption F A) g o' d scope fields,
     formatGlobal (set_generator g (newOrm op)) = (o', None) →
     d ∈ ignore op →
     Split d "->" = [scope; fields] →
     if decide (scope = "*")
     then FieldIgnore (Split fields ",") ∈ global o'
     else ∃ l1 l2, ignoreopt o' !! scope = Some (l1 ++ Split fields "," ++ l2)
                   ∧ FieldIgnore (l1 ++ Split fields "," ++ l2) ∈ tableOpts o' scope)
  ∧ (formatGlobal globalIgnoreOrm).2 = None
  ∧ global (formatGlobal globalIgnoreOrm).1 = [FieldIgnore ["created_at"; "updated_at"]]
  ∧ ignoreopt (formatGlobal globalIgnoreOrm).1 = ∅.
Proof.
  split; [|by vm_compute].
  intros F A op g o' d scope fields. apply ignore_fields_split.
Qed.

(** The general half at the directive of [main.go]. *)
Lemma C6_witness :
  "*->created_at,updated_at" ∈ ignore (opt globalIgnoreOrm)
  ∧ FieldIgnore ["created_at"; "updated_at"] ∈ global (formatGlobal globalIgnoreOrm).1.
Proof.
  split; [by left|].
  exact (proj1 C6_ignore_fields_split_on_commas string unit (opt globalIgnoreOrm) []
           (formatGlobal globalIgnoreOrm).1 "*->created_at,updated_at" "*"
           "created_at,updated_at" eq_refl
           (list_elem_of_here _ _) eq_refl).
Defined.




(** The statement at the tables "user" and "order" with a retag directive
    for "user". *)
Lemma C9_witness :
  (length (Split "user" "@") ≤ 2)%nat ∧ (length (Split "order" "@") ≤ 2)%nat
  ∧ ∃ oi optsi oj optsj call rest,
      modelLoop [] (formatGlobal tableRetagOrm).1 (baseOpts (formatGlobal tableRetagOrm).1)
      = (oi, optsi, None)
      ∧ modelLoop ([] ++ "user" :: [] ++ ["order"]) (formatGlobal tableRetagOrm).1
          (baseOpts (formatGlobal tableRetagOrm).1) = (oj, optsj, None)
      ∧ last (generator oj) = Some call
      ∧ generateCall "order" optsj = Some call
      ∧ generator (model (formatGlobal tableRetagOrm).1
                     ([] ++ "user" :: [] ++ "order" :: [])).1 = generator oj ++ rest
      ∧ infix (optByTable oi (tableOf "user")).1.2 optsj.
Proof.
  assert (H1 : (length (Split "user" "@") ≤ 2)%nat) by (vm_compute; lia).
  assert (H2 : (length (Split "order" "@") ≤ 2)%nat) by (vm_compute; lia).
  split; [exact H1|]. split; [exact H2|].
  exact (C9_options_accumulate_across_tables (formatGlobal tableRetagOrm).1
           [] "user" [] "order" [] H1 H2).
Defined.

(** The statement at the retag directive "user->created_at->c_date". *)
Lemma C10_witness :
  formatGlobal tableRetagOrm = ((formatGlobal tableRetagOrm).1, None)
  ∧ "user->created_at->c_date" ∈ retags (opt tableRetagOrm)
  ∧ FieldJSONTag "created_at" "c_date,omitempty"
    ∈ tableOpts (formatGlobal tableRetagOrm).1 "user"
  ∧ WithJSONTagNameStrategy jsonTagNameStrategy
    ∈ generator (run tableRetagOrm (modelArgs ["user"])).
Proof.
  assert (Hok : formatGlobal tableRetagOrm = ((formatGlobal tableRetagOrm).1, None))
    by (vm_compute; reflexivity).
  split; [exact Hok|]. split; [by left|].
  pose proof (C10_json_tags_end_in_omitempty (opt tableRetagOrm) [])
    as (_ & _ & H3 & _ & H5).
  split.
  - exact (H3 (formatGlobal tableRetagOrm).1 "user->created_at->c_date" "user"
             "created_at" "c_date" Hok (list_elem_of_here _ _) eq_refl).
  - exact (H5 (modelArgs ["user"]) sampleDB eq_refl).
Defined.

(** ** Where the code departs from the claims *)

(** C1 (defect of the code): a regrom-tag directive scoped to a table never
    reaches that table.  For the well-formed directive
    "user->created_at->c_date" [formatGlobal] succeeds, leaves
    [o.regormtag] empty, and [optByTable] has no option for "user".  The
    options of a table are not kept to it either: with the retag directive
    "user->created_at->c_date" and the tables "user" and "order", the model
    of "order" is generated with the JSON retag of "user". *)
Theorem C1_table_scoped_regorm_rule_is_lost :
  Split "user->created_at->c_date" "->" = ["user"; "created_at"; "c_date"]
  ∧ (formatGlobal tableRegormOrm).2 = None
  ∧ regormtag (formatGlobal tableRegormOrm).1 = ∅
  ∧ tableOpts (formatGlobal tableRegormOrm).1 "user" = []
  ∧ generator (run tableRetagOrm (modelArgs ["user"; "order"]))
    = [UseDB; WithJSONTagNameStrategy jsonTagNameStrategy;
       GenerateModel "user" [FieldJSONTag "created_at" "c_date,omitempty"];
       GenerateModel "order" [FieldJSONTag "created_at" "c_date,omitempty"];
       Execute].
Proof. by vm_compute. Qed.

(** C2 (defect of the code): [formatGlobal] never assigns [o.regormtag],
    so the map read by [optByTable] stays as [NewOrmCommand] left it; for
    the directive "user->created_at->c_date" the options of "user" hold no
    GORM tag for [created_at]. *)
Theorem C2_regormtag_is_never_assigned :
  (∀ (F A : Type) (o : Orm F A), regormtag (formatGlobal o).1 = regormtag o)
  ∧ (formatGlobal tableRegormOrm).2 = None
  ∧ regormtag (formatGlobal tableRegormOrm).1 !! "user" = None
  ∧ FieldGORMTag "created_at" "c_date" ∉ tableOpts (formatGlobal tableRegormOrm).1 "user".
Proof.
  split; [intros F A o; apply formatGlobal_frame|].
  split; [by vm_compute|]. split; [by vm_compute|].
  assert (tableOpts (formatGlobal tableRegormOrm).1 "user" = []) as -> by (by vm_compute).
  apply not_elem_of_nil.
Qed.

(** C3 (defect of the code): the map merged for a table is the global map
    with the table's own entries copied over it ([mergedTypes_lookup]), but
    it is installed on the generator only when it is not empty.  With the
    one override "t1->a" and the tables "t1" and "t2", the map merged for
    "t2" is empty, nothing is installed for it, and the model of "t2" is
    generated while the generator still holds the map of "t1". *)
Theorem C3_empty_merge_keeps_earlier_map :
  (∀ (F A : Type) (o : Orm F A) T k,
     mergedTypes o T !! k
     = match types o !! T ≫= (.!! k) with
       | Some typ => Some typ
       | None => globalTypes o !! k
       end)
  ∧ mergedTypes (formatGlobal tableTypeOrm).1 "t1" = {["a" := "Y"]}
  ∧ mergedTypes (formatGlobal tableTypeOrm).1 "t2" = ∅
  ∧ generator (run tableTypeOrm (modelArgs ["t1"; "t2"]))
    = [UseDB; WithJSONTagNameStrategy jsonTagNameStrategy;
       WithDataTypeMap {["a" := "Y"]}; WithDataTypeMap {["a" := "Y"]};
       GenerateModel "t1" []; GenerateModel "t2" []; Execute]
  ∧ installedTypes (take 5 (generator (run tableTypeOrm (modelArgs ["t1"; "t2"]))))
    = Some {["a" := "Y"]}.
Proof.
  split; [intros F A o T k; apply mergedTypes_lookup|]. by vm_compute.
Qed.

(** C7 (defect of the code): for a table that no directive names,
    [optByTable] returns no option, but the table does not fall back to the
    global rules alone.  With the retag directive "user->created_at->c_date"
    there is no global rule at all, "order" has no option of its own, and
    yet after "user" the model of "order" is generated with the JSON retag
    of "user". *)
Theorem C7_unmatched_table_inherits_earlier_options :
  tableOpts (formatGlobal tableRetagOrm).1 "order" = []
  ∧ baseOpts (formatGlobal tableRetagOrm).1 = []
  ∧ generator (model (formatGlobal tableRetagOrm).1 ["user"; "order"]).1
    = [GenerateModel "user" [FieldJSONTag "created_at" "c_date,omitempty"];
       GenerateModel "order" [FieldJSONTag "created_at" "c_date,omitempty"]]
  ∧ generator (model (formatGlobal tableRetagOrm).1 ["order"]).1
    = [GenerateModel "order" []].
Proof. by vm_compute. Qed.

(** * Further properties of the [orm] command *)

Section DriverFacts.
Context {DataTypeFn Annotation : Type}.
Local Abbreviation Orm := (Orm DataTypeFn Annotation).
Local Abbreviation OrmOption := (OrmOption DataTypeFn Annotation).
Local Abbreviation GenCall := (GenCall DataTypeFn Annotation).
Implicit Types (o : Orm) (op : OrmOption) (g : list GenCall).

(** X1: [formatGlobal] returns nil exactly when every directive has the
    number of "->"-separated segments of its kind. *)
Theorem formatGlobal_succeeds_iff o :
  (formatGlobal o).2 = None
  ↔ Forall (λ kd, length (Split kd.2 "->") = segments kd.1) (directives (opt o)).
Proof.
  rewrite formatGlobal_error, fmap_None, find_none_Forall.
  apply Forall_proper; [|done]. intros [k d]. unfold malformed. cbn [fst snd].
  rewrite negb_false_iff. apply Nat.eqb_eq.
Qed.

(** X2: after a successful [formatGlobal], a data-type entry scoped to a
    table is found under that table and its field, and it is what the map
    merged for the table binds the field to, whatever the global map says
    (the keys of the Go map are distinct). *)
Theorem table_type_override_resolved op g o' key typ T field :
  formatGlobal (set_generator g (newOrm op)) = (o', None) →
  NoDup (dataType op).*1 →
  (key, typ) ∈ dataType op →
  Split key "->" = [T; field] →
  T ≠ "*" →
  (∃ m, types o' !! T = Some m ∧ m !! field = Some typ)
  ∧ mergedTypes o' T !! field = Some typ.
Proof.
  intros Hfg Hnd Hin Hs HT.
  destruct (formatGlobal_fresh op g o' Hfg) as (_ & _ & _ & _ & _ & _ & _ & _ & Hwf).
  destruct (directives_wellformed op Hwf) as (_ & _ & _ & Hw4).
  assert (Hft : (field, typ) ∈ typesOf op T).
  { apply elem_of_scoped, (parsed_elem_of dataTypeEntry _ (key, typ)); [done..|].
    unfold dataTypeEntry. cbn [fst snd]. by rewrite Hs. }
  assert (Hm : types o' !! T = Some (overlay (typesOf op T) ∅)).
  { rewrite (types_fresh op g o' T Hfg), decide_False by done.
    destruct (typesOf op T); [by apply elem_of_nil in Hft|done]. }
  assert (Hl : overlay (typesOf op T) ∅ !! field = Some typ).
  { apply overlay_lookup_NoDup; [by apply typesOf_NoDup|done]. }
  split; [by eexists|]. rewrite mergedTypes_lookup, Hm. cbn. by rewrite Hl.
Qed.

(** X3: after a successful [formatGlobal], [optByTable] never fails and
    returns, for a table name, one [FieldIgnore] with the fields of all the
    ignore directives of that table (when there is one) followed by one
    [FieldJSONTag] per retag directive of the table, in the order of the
    directives and with duplicates kept. *)
Theorem optByTable_after_formatGlobal op g o' T :
  formatGlobal (set_generator g (newOrm op)) = (o', None) →
  T ≠ "*" →
  (optByTable o' T).2 = None
  ∧ (optByTable o' T).1.2
    = match ignoresOf op T with
      | [] => []
      | ls => [FieldIgnore (concat ls)]
      end ++ ((λ r, FieldJSONTag r.1 r.2) <$> retagsOf op T).
Proof.
  intros Hfg HT. split; [by rewrite optByTable_spec|].
  change (optByTable o' T).1.2 with (tableOpts o' T).
  by rewrite (tableOpts_fresh op g o' T Hfg), decide_False.
Qed.

(** X4: a malformed retag directive stops [formatGlobal] before anything is
    resolved: the per-table maps, the type maps and the generator are as
    they were, and [o.global] has only gained the wildcard retags read
    before the error. *)
Theorem malformed_retag_resolves_nothing o d :
  d ∈ retags (opt o) →
  length (Split d "->") ≠ 3 →
  (formatGlobal o).2 ≠ None
  ∧ retagopt (formatGlobal o).1 = retagopt o
  ∧ ignoreopt (formatGlobal o).1 = ignoreopt o
  ∧ types (formatGlobal o).1 = types o
  ∧ globalTypes (formatGlobal o).1 = globalTypes o
  ∧ generator (formatGlobal o).1 = generator o
  ∧ global (formatGlobal o).1
    = global o ++ ((λ r, FieldJSONTag r.1 r.2) <$> retagsOf (opt o) "*").
Proof.
  intros Hd Hlen. rewrite formatGlobal_unfold.
  destruct (firstError KRetag (retags (opt o))) as [e|] eqn:He; [by cbn|].
  apply firstError_None in He. rewrite Forall_forall in He.
  specialize (He d Hd). unfold malformed in He. cbn [fst snd segments] in He.
  apply negb_false_iff, Nat.eqb_eq in He. done.
Qed.


(** The loop of [model] appends one model to [o.structs] for every entry
    with at most one "@" and prints one warning for every other entry. *)
Lemma modelLoop_effects tables o opts :
  structs (modelLoop tables o opts).1.1 = structs o ++ omap entryMeta tables
  ∧ stdout (modelLoop tables o opts).1.1 = stdout o ++ omap entryWarning tables.
Proof.
  revert o opts. induction tables as [|val tables IH]; intros o opts.
  - cbn. by rewrite !app_nil_r.
  - cbn [modelLoop omap list_omap]. unfold entryMeta at 1, entryWarning at 1.
    pose proof (Split_nonempty val "@" ltac:(done)) as Hne.
    destruct (Split val "@") as [|t [|m [|x rest]]]; [done|..].
    + destruct (resolve_generator o t) as (calls & _ & _ & Hout & Hst).
      rewrite optByTable_spec in *. cbn [fst snd] in *.
      match goal with |- context [modelLoop tables ?st ?op] =>
        destruct (IH st op) as [-> ->] end.
      cbn. rewrite Hout, Hst, <-app_assoc. done.
    + destruct (resolve_generator o t) as (calls & _ & _ & Hout & Hst).
      rewrite optByTable_spec in *. cbn [fst snd] in *.
      match goal with |- context [modelLoop tables ?st ?op] =>
        destruct (IH st op) as [-> ->] end.
      cbn. rewrite Hout, Hst, <-app_assoc. done.
    + match goal with |- context [modelLoop tables ?st ?op] =>
        destruct (IH st op) as [-> ->] end.
      cbn. by rewrite <-app_assoc.
Qed.


Lemma Contains_prefix x p : HasPrefix x p = true → Contains x p = true.
Proof. intros H. destruct x; cbn; by rewrite H. Qed.

Lemma Contains_middle a s b : Contains (a +:+ s +:+ b) s = true.
Proof.
  induction a as [|c a IH].
  - change (EmptyString +:+ s +:+ b) with (s +:+ b).
    apply Contains_prefix, HasPrefix_append.
  - rewrite append_cons. cbn [Contains]. rewrite IH. apply orb_true_r.
Qed.

(** X7: when there are ignore directives, the first option of every model
    that [model] generates is a [FieldIgnore] of the directive strings as
    they were configured, each still with its "->", and the options that
    follow are [o.global]. *)
Theorem raw_ignore_strings_lead_every_model op g o' tables :
  formatGlobal (set_generator g (newOrm op)) = (o', None) →
  ignore op ≠ [] →
  Forall (λ d, Contains d "->" = true) (ignore op)
  ∧ ∃ calls,
      generator (model o' tables).1 = generator o' ++ calls
      ∧ Forall (λ c, ∀ co, callOpts c = Some co →
                  ∃ rest, co = FieldIgnore (ignore op) :: global o' ++ rest) calls.
Proof.
  intros Hfg Hne.
  destruct (formatGlobal_fresh op g o' Hfg) as (Hopt & _ & _ & _ & _ & _ & _ & _ & Hwf).
  destruct (directives_wellformed op Hwf) as (_ & _ & Hw3 & _).
  split.
  - eapply Forall_impl; [exact Hw3|]. intros d [[scope fs] He].
    apply ignoreEntry_Some in He as (fields & Hs & _).
    rewrite <-(Join_Split d "->"), Hs by done. cbn [Join].
    apply Contains_middle.
  - destruct (model_generator o' tables) as (calls & Hgen & Hcalls).
    exists calls. split; [done|].
    eapply Forall_impl; [exact Hcalls|]. intros c Hc co Hco.
    destruct (Hc co Hco) as [k ->]. unfold baseOpts. rewrite Hopt.
    rewrite decide_True by (destruct (ignore op); [done|cbn; lia]).
    exists k. by rewrite <-app_assoc.
Qed.

Lemma installedTypes_snoc g c :
  installedTypes (g ++ [c])
  = match c with
    | WithDataTypeMap m => Some m
    | _ => installedTypes g
    end.
Proof.
  unfold installedTypes. rewrite omap_app.
  destruct c; cbn; rewrite ?app_nil_r; try done. apply last_snoc.
Qed.

(** X8: the data-type map in force when the model of an entry is generated
    is the map merged for its table when that is not empty, and otherwise
    the map that was installed before, if any. *)
Theorem installed_types_at_generation val tables o opts :
  (length (Split val "@") ≤ 2)%nat →
  ∃ o1 before call,
    modelLoop (val :: tables) o opts
    = modelLoop tables o1 (opts ++ tableOpts o (tableOf val))
    ∧ generator o1 = before ++ [call]
    ∧ generateCall val (opts ++ tableOpts o (tableOf val)) = Some call
    ∧ installedTypes before
      = if decide (mergedTypes o (tableOf val) = ∅)
        then installedTypes (generator o)
        else Some (mergedTypes o (tableOf val)).
Proof.
  intros Hlen. cbn [modelLoop]. unfold generateCall, tableOf.
  pose proof (Split_nonempty val "@" ltac:(done)) as Hne.
  assert (Hres : ∀ t,
    installedTypes (generator (genoptByTable (optByTable o t).1.1 t))
    = if decide (mergedTypes o t = ∅) then installedTypes (generator o)
      else Some (mergedTypes o t)).
  { intros t. rewrite optByTable_spec, genoptByTable_spec. cbn [fst].
    destruct (decide (size (mergedTypes o t) = 0)) as [Hs|Hs]; cbv beta iota.
    - rewrite (decide_True _ _ (proj1 (map_size_empty_iff _) Hs)).
      destruct (types o !! t); [|done]. by rewrite (decide_True _ _ Hs).
    - assert (He : mergedTypes o t ≠ ∅)
        by (intros He; apply Hs; by rewrite He, map_size_empty).
      rewrite (decide_False _ _ He).
      change (types (genCall (WithDataTypeMap (mergedTypes o t)) o)) with (types o).
      change (mergedTypes (genCall (WithDataTypeMap (mergedTypes o t)) o) t)
        with (mergedTypes o t).
      destruct (types o !! t); [rewrite (decide_False _ _ Hs)|];
        cbn [generator genCall set_generator]; by rewrite !installedTypes_snoc. }
  destruct (Split val "@") as [|t [|m [|x rest]]]; [done| | |cbn in Hlen; lia];
    cbn [hd]; specialize (Hres t); rewrite optByTable_spec in *; cbn [fst snd] in *.
  - eexists _, _, _. split; [reflexivity|]. cbn. by split_and!.
  - eexists _, _, _. split; [reflexivity|]. cbn. by split_and!.
Qed.

(** *** [dao] *)

Lemma foldl_insert_lookup (l : list QueryStructMeta) (m0 : gmap string QueryStructMeta) k s :
  foldl (λ m meta, <[TableName meta := meta]> m) m0 l !! k = Some s →
  (s ∈ l ∧ TableName s = k) ∨ m0 !! k = Some s.
Proof.
  revert m0. induction l as [|x l IH]; intros m0 H; [by right|].
  cbn [foldl] in H. destruct (IH _ H) as [[Hin Hk]|Hm].
  - left. split; [by right|done].
  - destruct (decide (TableName x = k)) as [Hx|Hx].
    + rewrite <-Hx, lookup_insert_eq in Hm. injection Hm as <-. left. split; [left|done].
    + rewrite lookup_insert_ne in Hm by done. by right.
Qed.

(** The shape of a successful [dao]: [ApplyBasic] with the kept models, the
    wildcard annotation (if any) applied to all of them, then the
    annotations of single tables, each applied to one kept model of its
    table.  [dao] changes nothing but the generator. *)
Lemma dao_shape o :
  let kept := List.filter (wanted (daoTables (opt o))) (structs o) in
  ∃ calls,
    (dao o).1 = set_generator (generator o ++ calls) o
    ∧ (if (dao o).2 is None
       then ∃ tableCalls,
              calls = [ApplyBasic kept]
                      ++ match (list_to_map (daoApi (opt o)) : gmap string Annotation) !! "*" with
                         | Some a => [ApplyInterface a kept]
                         | None => []
                         end
                      ++ tableCalls
              ∧ Forall (λ c, ∃ a s, c = ApplyInterface a [s] ∧ s ∈ kept
                                    ∧ (TableName s, a) ∈ daoApi (opt o)
                                    ∧ TableName s ≠ "*") tableCalls
       else calls = []).
Proof.
  cbv zeta. unfold dao.
  case_decide; [exists []; split; [by rewrite app_nil_r; destruct o|done]|].
  cbv zeta. fold (wanted (daoTables (opt o))).
  set (kept := List.filter _ (structs o)).
  case_decide; [exists []; split; [by rewrite app_nil_r; destruct o|done]|].
  cbn [fst snd].
  set (sm := foldl _ ∅ kept).
  set (f := λ (o' : Orm) '(table, annotae), _).
  assert (Hstep : ∀ o1 x, x ∈ daoApi (opt o) →
            ∃ calls, f o1 x = set_generator (generator o1 ++ calls) o1
              ∧ Forall (λ c, ∃ a s, c = ApplyInterface a [s] ∧ s ∈ kept
                                    ∧ (TableName s, a) ∈ daoApi (opt o)
                                    ∧ TableName s ≠ "*") calls).
  { intros o1 [t a] Hx. unfold f.
    destruct (decide (t = "*"));
      [exists []; split; [by rewrite app_nil_r; destruct o1|constructor]|].
    destruct (sm !! t) as [s|] eqn:Hs;
      [|exists []; split; [by rewrite app_nil_r; destruct o1|constructor]].
    exists [ApplyInterface a [s]]. split; [done|].
    constructor; [|constructor]. exists a, s.
    apply foldl_insert_lookup in Hs as [[Hin <-]|Hs]; [|by rewrite lookup_empty in Hs].
    by split_and!. }
  assert (Hf : ∀ l o1, (∀ x, x ∈ l → x ∈ daoApi (opt o)) →
            ∃ calls, foldl f o1 l = set_generator (generator o1 ++ calls) o1
              ∧ Forall (λ c, ∃ a s, c = ApplyInterface a [s] ∧ s ∈ kept
                                    ∧ (TableName s, a) ∈ daoApi (opt o)
                                    ∧ TableName s ≠ "*") calls).
  { induction l as [|x l IH]; intros o1 Hl.
    - exists []. split; [by rewrite app_nil_r; destruct o1|constructor].
    - cbn [foldl].
      destruct (Hstep o1 x) as (c1 & Hx & Hc1); [apply Hl; by left|].
      destruct (IH (f o1 x)) as (calls & -> & Hcalls);
        [intros y Hy; apply Hl; by right|].
      rewrite Hx. exists (c1 ++ calls). split.
      + cbn. by rewrite <-app_assoc.
      + by apply Forall_app. }
  clearbody f.
  match goal with |- ∃ calls, foldl f ?o2 ?l = _ ∧ _ =>
    destruct (Hf l o2 (λ x H, H)) as (tc & -> & Htc) end.
  destruct (_ !! "*") as [a|]; cbn [generator genCall set_generator];
    eexists; (split; [by rewrite <-!app_assoc|]); exists tc; by rewrite <-?app_assoc.
Qed.


(** X10: a successful [dao] first hands the kept models to [ApplyBasic], in
    the order in which they were generated, and every later call is an
    [ApplyInterface] on kept models only: no model of a table outside
    [daoTables] is ever applied (unless "*" is listed), and nothing but the
    generator changes. *)
Theorem dao_applies_only_wanted_models o :
  (dao o).2 = None →
  ∃ rest,
    (dao o).1
    = set_generator
        (generator o
         ++ ApplyBasic (List.filter (wanted (daoTables (opt o))) (structs o)) :: rest) o
    ∧ Forall (λ c, ∃ a ms, c = ApplyInterface a ms
                ∧ ∀ s, s ∈ ms →
                    s ∈ structs o
                    ∧ ("*" ∈ daoTables (opt o) ∨ TableName s ∈ daoTables (opt o))) rest.
Proof.
  intros Hok. destruct (dao_shape o) as (calls & Hst & Hcalls). rewrite Hok in Hcalls.
  destruct Hcalls as (tc & -> & Htc).
  assert (Hkept : ∀ s, s ∈ List.filter (wanted (daoTables (opt o))) (structs o) →
            s ∈ structs o
            ∧ ("*" ∈ daoTables (opt o) ∨ TableName s ∈ daoTables (opt o))).
  { intros s [Hin Hw]%list_elem_of_In%filter_In. split; [by apply list_elem_of_In|].
    unfold wanted in Hw. by rewrite orb_true_iff, !bool_decide_eq_true in Hw. }
  eexists. split; [exact Hst|].
  apply Forall_app. split.
  - destruct (_ !! "*") as [a|]; [|constructor].
    constructor; [|constructor]. by exists a, (List.filter (wanted (daoTables (opt o))) (structs o)).
  - eapply Forall_impl; [exact Htc|]. intros c (a & s & -> & Hs & _).
    exists a, [s]. split; [done|]. intros s' ->%list_elem_of_singleton. by apply Hkept.
Qed.

(** *** [exec] and [run] *)

Lemma resolve_modelCalls o T :
  ∃ calls, generator (genoptByTable (optByTable o T).1.1 T) = generator o ++ calls
           ∧ Forall (λ c, modelCall c = true) calls.
Proof.
  rewrite optByTable_spec, genoptByTable_spec. cbn [fst].
  case_decide; cbn; destruct (types o !! T); repeat case_decide; cbn;
    first [ exists []; by rewrite app_nil_r
          | eexists [_]; split; [done|by repeat constructor]
          | eexists [_; _]; rewrite <-app_assoc; split; [done|by repeat constructor] ].
Qed.

(** The loop of [model] calls nothing on the generator but
    [WithDataTypeMap], [GenerateModel] and [GenerateModelAs]. *)
Lemma modelLoop_modelCalls tables o opts :
  ∃ calls, generator (modelLoop tables o opts).1.1 = generator o ++ calls
           ∧ Forall (λ c, modelCall c = true) calls.
Proof.
  revert o opts. induction tables as [|val tables IH]; intros o opts.
  - exists []. by rewrite app_nil_r.
  - cbn [modelLoop].
    pose proof (Split_nonempty val "@" ltac:(done)) as Hne.
    destruct (Split val "@") as [|t [|m [|x rest]]]; [done|..].
    + destruct (resolve_modelCalls o t) as (calls & Hgen & Hcalls).
      rewrite optByTable_spec in *. cbn [fst snd] in *.
      match goal with |- context [modelLoop tables ?st ?op] =>
        destruct (IH st op) as (calls' & -> & Hcalls') end.
      cbn. rewrite Hgen. eexists (calls ++ [_] ++ calls').
      split; [by rewrite <-!app_assoc|]. rewrite !Forall_app. by repeat constructor.
    + destruct (resolve_modelCalls o t) as (calls & Hgen & Hcalls).
      rewrite optByTable_spec in *. cbn [fst snd] in *.
      match goal with |- context [modelLoop tables ?st ?op] =>
        destruct (IH st op) as (calls' & -> & Hcalls') end.
      cbn. rewrite Hgen. eexists (calls ++ [_] ++ calls').
      split; [by rewrite <-!app_assoc|]. rewrite !Forall_app. by repeat constructor.
    + match goal with |- context [modelLoop tables ?st ?op] =>
        destruct (IH st op) as (calls' & -> & Hcalls') end.
      by exists calls'.
Qed.

(** What [model] does to the receiver: calls of its own on the generator,
    and yellow warnings on the terminal. *)
Lemma model_effects o tables :
  ∃ calls warnings,
    generator (model o tables).1 = generator o ++ calls
    ∧ Forall (λ c, modelCall c = true) calls
    ∧ stdout (model o tables).1 = stdout o ++ warnings
    ∧ Forall (λ m, m.1 = Yellow) warnings.
Proof.
  assert (Hw : ∀ ts, Forall (λ m : Color * string, m.1 = Yellow) (omap entryWarning ts)).
  { intros ts. apply Forall_forall. intros m (val & _ & Hm)%list_elem_of_omap.
    unfold entryWarning in Hm.
    destruct (Split val "@") as [|? [|? [|? ?]]]; by simplify_eq. }
  unfold model.
  destruct (if decide (length tables = 0) then _ else _) as [ts|e];
    [|exists [], []; by rewrite !app_nil_r].
  destruct (modelLoop_modelCalls ts o (baseOpts o)) as (calls & Hgen & Hcalls).
  destruct (modelLoop_effects ts o (baseOpts o)) as [_ Hout].
  destruct (modelLoop ts o (baseOpts o)) as [[o' ?] err]. cbn [fst snd] in *.
  by exists calls, (omap entryWarning ts).
Qed.

(** What [exec] does to the receiver: the calls of [model] and [dao] on the
    generator, then [Execute] when it returns nil; warnings on the
    terminal. *)
Lemma exec_effects o args :
  ∃ calls warnings,
    generator (exec o args).1
    = generator o ++ calls ++ (if (exec o args).2 is None then [Execute] else [])
    ∧ Forall (λ c, modelCall c = true ∨ daoCall c = true) calls
    ∧ stdout (exec o args).1 = stdout o ++ warnings
    ∧ Forall (λ m, m.1 = Yellow) warnings.
Proof.
  unfold exec.
  destruct (GetString_style args) as [style|e];
    [|exists [], []; by rewrite !app_nil_r].
  destruct (GetStringArray_tables args) as [ts|e];
    [|exists [], []; by rewrite !app_nil_r].
  destruct (model_effects o ts) as (calls & warnings & Hgen & Hcalls & Hout & Hw).
  assert (Hcalls' : Forall (λ c : GenCall, modelCall c = true ∨ daoCall c = true) calls)
    by (eapply Forall_impl; [exact Hcalls|]; by left).
  destruct (model o ts) as [o1 [e|]]; cbn [fst snd] in *.
  { exists calls, warnings. by rewrite app_nil_r. }
  case_decide.
  { exists calls, warnings. cbn. by rewrite Hgen, <-app_assoc. }
  destruct (dao_shape o1) as (dcalls & Hst & Hd).
  assert (Hdk : Forall (λ c : GenCall, modelCall c = true ∨ daoCall c = true) dcalls).
  { destruct (dao o1).2; [by subst|]. destruct Hd as (tc & -> & Htc).
    rewrite !Forall_app. split_and!.
    - constructor; [by right|constructor].
    - destruct (_ !! "*"); [constructor; [by right|]|]; constructor.
    - eapply Forall_impl; [exact Htc|]. intros c (a & s & -> & _). by right. }
  destruct (dao o1) as [o2 [e|]]; cbn [fst snd] in *; subst o2;
    exists (calls ++ dcalls), warnings; cbn; rewrite Hgen, <-?app_assoc;
    rewrite ?app_nil_r; (split_and!; [done|by apply Forall_app|done..]).
Qed.

Lemma filter_isExecute_nil (calls : list GenCall) :
  Forall (λ c, modelCall c = true ∨ daoCall c = true) calls →
  List.filter isExecute calls = [].
Proof.
  induction 1 as [|c calls Hc _ IH]; [done|].
  cbn. rewrite IH. by destruct c, Hc.
Qed.

(** X11: [exec] calls [Execute] exactly once when it returns nil, as its
    last call on the generator, and never when it returns an error. *)
Theorem exec_executes_iff_it_succeeds o args :
  length (List.filter isExecute (generator (exec o args).1))
  = length (List.filter isExecute (generator o))
    + (if (exec o args).2 is None then 1 else 0)
  ∧ ((exec o args).2 = None → last (generator (exec o args).1) = Some Execute).
Proof.
  destruct (exec_effects o args) as (calls & warnings & Hgen & Hcalls & _).
  rewrite Hgen, !List.filter_app, !length_app, (filter_isExecute_nil calls Hcalls).
  destruct (exec o args).2; cbn; [split; [lia|done]|].
  split; [lia|]. intros _. by rewrite !app_assoc, last_snoc.
Qed.


End DriverFacts.

(** ** The statements with hypotheses, at sample configurations *)

(** X2 at the data-type entry "t1->a" of a configuration with that entry
    alone. *)
Lemma table_type_override_resolved_witness :
  formatGlobal tableTypeOrm = ((formatGlobal tableTypeOrm).1, None)
  ∧ Split "t1->a" "->" = ["t1"; "a"]
  ∧ mergedTypes (formatGlobal tableTypeOrm).1 "t1" !! "a" = Some "Y".
Proof.
  assert (Hok : formatGlobal tableTypeOrm = ((formatGlobal tableTypeOrm).1, None))
    by (vm_compute; reflexivity).
  assert (Hs : Split "t1->a" "->" = ["t1"; "a"]) by (vm_compute; reflexivity).
  split; [exact Hok|]. split; [exact Hs|].
  exact (proj2 (table_type_override_resolved (opt tableTypeOrm) []
                  (formatGlobal tableTypeOrm).1 "t1->a" "Y" "t1" "a"
                  Hok (NoDup_singleton _) (list_elem_of_here _ _) Hs ltac:(done))).
Defined.

(** X3 at the table "user" of a configuration with one retag directive for
    it. *)
Lemma optByTable_after_formatGlobal_witness :
  formatGlobal tableRetagOrm = ((formatGlobal tableRetagOrm).1, None)
  ∧ (optByTable (formatGlobal tableRetagOrm).1 "user").2 = None
  ∧ (optByTable (formatGlobal tableRetagOrm).1 "user").1.2
    = [FieldJSONTag "created_at" "c_date,omitempty"].
Proof.
  assert (Hok : formatGlobal tableRetagOrm = ((formatGlobal tableRetagOrm).1, None))
    by (vm_compute; reflexivity).
  split; [exact Hok|].
  exact (optByTable_after_formatGlobal (opt tableRetagOrm) []
           (formatGlobal tableRetagOrm).1 "user" Hok ltac:(done)).
Defined.

(** X4 at a retag directive with two segments that follows a well-formed
    wildcard directive. *)
Lemma malformed_retag_resolves_nothing_witness :
  "user->created_at" ∈ retags (opt malformedRetagOrm)
  ∧ length (Split "user->created_at" "->") ≠ 3
  ∧ (formatGlobal malformedRetagOrm).2 ≠ None
  ∧ retagopt (formatGlobal malformedRetagOrm).1 = ∅
  ∧ global (formatGlobal malformedRetagOrm).1
    = [FieldJSONTag "created_at" "c_date,omitempty"].
Proof.
  assert (Hin : "user->created_at" ∈ retags (opt malformedRetagOrm))
    by (right; left).
  assert (Hlen : length (Split "user->created_at" "->") ≠ 3) by (vm_compute; lia).
  split; [exact Hin|]. split; [exact Hlen|].
  pose proof (malformed_retag_resolves_nothing malformedRetagOrm "user->created_at"
                Hin Hlen) as (H1 & H2 & _ & _ & _ & _ & H7).
  exact (conj H1 (conj H2 H7)).
Defined.

(** X7 at the ignore directive of [main.go] and the table "user". *)
Lemma raw_ignore_strings_lead_every_model_witness :
  formatGlobal globalIgnoreOrm = ((formatGlobal globalIgnoreOrm).1, None)
  ∧ ignore (opt globalIgnoreOrm) = ["*->created_at,updated_at"]
  ∧ ∃ calls,
      generator (model (formatGlobal globalIgnoreOrm).1 ["user"]).1
      = generator (formatGlobal globalIgnoreOrm).1 ++ calls
      ∧ Forall (λ c, ∀ co, callOpts c = Some co →
                  ∃ rest, co = FieldIgnore ["*->created_at,updated_at"]
                               :: global (formatGlobal globalIgnoreOrm).1 ++ rest) calls.
Proof.
  assert (Hok : formatGlobal globalIgnoreOrm = ((formatGlobal globalIgnoreOrm).1, None))
    by (vm_compute; reflexivity).
  split; [exact Hok|]. split; [reflexivity|].
  exact (proj2 (raw_ignore_strings_lead_every_model (opt globalIgnoreOrm) []
                  (formatGlobal globalIgnoreOrm).1 ["user"] Hok ltac:(done))).
Defined.

(** X8 at the entry "user", generated first after the data-type entry
    "t1->a" was read. *)
Lemma installed_types_at_generation_witness :
  (length (Split "user" "@") ≤ 2)%nat
  ∧ ∃ o1 before call,
      modelLoop ["user"; "t1"] (formatGlobal tableTypeOrm).1 []
      = modelLoop ["t1"] o1 ([] ++ tableOpts (formatGlobal tableTypeOrm).1 (tableOf "user"))
      ∧ generator o1 = before ++ [call]
      ∧ generateCall "user" ([] ++ tableOpts (formatGlobal tableTypeOrm).1 (tableOf "user"))
        = Some call
      ∧ installedTypes before
        = if decide (mergedTypes (formatGlobal tableTypeOrm).1 (tableOf "user") = ∅)
          then installedTypes (generator (formatGlobal tableTypeOrm).1)
          else Some (mergedTypes (formatGlobal tableTypeOrm).1 (tableOf "user")).
Proof.
  assert (Hlen : (length (Split "user" "@") ≤ 2)%nat) by (vm_compute; lia).
  split; [exact Hlen|].
  exact (installed_types_at_generation "user" ["t1"] (formatGlobal tableTypeOrm).1 [] Hlen).
Defined.

(** X10 at the configuration of [main.go], whose [daoTables] are "user" and
    "game", after the models of "user" and "order" were generated. *)
Lemma dao_applies_only_wanted_models_witness :
  (dao generatedOrm).2 = None
  ∧ ∃ rest,
      (dao generatedOrm).1
      = set_generator
          (generator generatedOrm
           ++ ApplyBasic (List.filter (wanted (daoTables (opt generatedOrm)))
                            (structs generatedOrm)) :: rest) generatedOrm
      ∧ Forall (λ c, ∃ a ms, c = ApplyInterface a ms
                  ∧ ∀ s, s ∈ ms →
                      s ∈ structs generatedOrm
                      ∧ ("*" ∈ daoTables (opt generatedOrm)
                         ∨ TableName s ∈ daoTables (opt generatedOrm))) rest.
Proof.
  assert (Hok : (dao generatedOrm).2 = None) by (vm_compute; reflexivity).
  split; [exact Hok|].
  exact (dao_applies_only_wanted_models generatedOrm Hok).
Defined.

(** * Properties of the [rsa] command *)

(** Tries the alternatives of a disjunction from left to right. *)
Ltac pick tac := first [ solve [tac] | left; solve [tac] | right; pick tac ].

Section RsaFacts.
Import encrypt.
Context {PrivateKey PublicKey : Type}.
Implicit Types (r : RSA) (w : World) (env : Env (PrivateKey:=PrivateKey) (PublicKey:=PublicKey)).

(** X13: [validate] returns nil exactly for the encodings PEM and DER, the
    key lengths 1024, 2048, 3072 and 4096, and the formats PKCS1 and
    PKCS8. *)
Theorem validate_accepts_iff r :
  validate r = None
  ↔ (encoding r = "PEM" ∨ encoding r = "DER")
    ∧ (bits r = 1024 ∨ bits r = 2048 ∨ bits r = 3072 ∨ bits r = 4096)%Z
    ∧ (format r = "PKCS1" ∨ format r = "PKCS8").
Proof. unfold validate. repeat case_decide; intuition congruence. Qed.

(** X14: [validate] reports one problem only, in the order encoding, bits,
    format: the message names the encoding whenever that is invalid, the
    key length only when the encoding is valid, and the format only when
    both are. *)
Theorem validate_reports_first_problem r msg :
  validate r = Some msg →
  (¬ (encoding r = "PEM" ∨ encoding r = "DER")
   ∧ msg = "invalid encoding: " +:+ encoding r +:+ ", must be PEM or DER")
  ∨ ((encoding r = "PEM" ∨ encoding r = "DER")
     ∧ ¬ (bits r = 1024 ∨ bits r = 2048 ∨ bits r = 3072 ∨ bits r = 4096)%Z
     ∧ msg = "invalid bits: " +:+ FormatInt (bits r)
             +:+ ", must be one of 1024, 2048, 3072, 4096")
  ∨ ((encoding r = "PEM" ∨ encoding r = "DER")
     ∧ (bits r = 1024 ∨ bits r = 2048 ∨ bits r = 3072 ∨ bits r = 4096)%Z
     ∧ ¬ (format r = "PKCS1" ∨ format r = "PKCS8")
     ∧ msg = "invalid format: " +:+ format r +:+ ", must be PKCS1 or PKCS8").
Proof. unfold validate. repeat case_decide; intuition congruence. Qed.

(** X15: when [exec] returns nil it has made exactly four calls: the output
    directory (mode 0755), the key, the private key file (mode 0600) and then
    the public key file (mode 0644), both with the extension of the encoding
    and both marshalled in the configured format; the format and the
    encoding were then valid ones. *)
Theorem exec_success_writes_both_keys env r w w' :
  exec env r w = (w', None) →
  ∃ key privBytes pubBytes privType pubType,
    generateKey env (bits r) = Ok key
    ∧ (encoding r = "PEM" ∨ encoding r = "DER")
    ∧ (format r = "PKCS1"
       ∧ privBytes = MarshalPKCS1PrivateKey env key
       ∧ pubBytes = MarshalPKCS1PublicKey env (publicKey env key)
       ∧ privType = "RSA PRIVATE KEY" ∧ pubType = "RSA PUBLIC KEY"
       ∨ format r = "PKCS8"
         ∧ MarshalPKCS8PrivateKey env key = Ok privBytes
         ∧ MarshalPKIXPublicKey env (publicKey env key) = Ok pubBytes
         ∧ privType = "PRIVATE KEY" ∧ pubType = "PUBLIC KEY")
    ∧ calls w'
      = calls w ++ [MkdirAll (outDir r) 493; GenerateKey (bits r);
                    WriteFile (privatePath env r) (pemOrDer env r privType privBytes) 384;
                    WriteFile (publicPath env r) (pemOrDer env r pubType pubBytes) 420]
    ∧ printed w' = printed w.
Proof.
  unfold exec, private, public, pemOrDer, privatePath, publicPath.
  intros H.
  repeat (first [ case_decide | case_match ]; simplify_eq; try done);
    try congruence; cbn [calls printed call]; rewrite <-?app_assoc;
    eexists _, _, _, _, _; (split; [done|]); (split; [by auto|]);
    (split; [first [ left; by split_and! | right; by split_and! ]|]); by split.
Qed.

(** X16: with validated flags [exec] can only fail on what the system
    answers (the directory, the key, a PKCS8 encoding, a file), never with
    an unsupported format or encoding, and it stops at the first failure
    without undoing anything: when the public key cannot be marshalled or
    written, the private key file has already been written. *)
Theorem exec_failure_after_validate env r w w' e :
  validate r = None →
  exec env r w = (w', Some e) →
  printed w' = printed w
  ∧ ((∃ e0, mkdirAll env (outDir r) = Some e0 ∧ e = "mkdir: " +:+ e0
            ∧ calls w' = calls w ++ [MkdirAll (outDir r) 493])
     ∨ (∃ e0, generateKey env (bits r) = Err e0
              ∧ e = "failed to generate RSA private key: " +:+ e0
              ∧ calls w' = calls w ++ [MkdirAll (outDir r) 493; GenerateKey (bits r)])
     ∨ (∃ key e0, generateKey env (bits r) = Ok key
                  ∧ MarshalPKCS8PrivateKey env key = Err e0
                  ∧ e = "failed to marshal PKCS8 private key: " +:+ e0
                  ∧ calls w' = calls w ++ [MkdirAll (outDir r) 493; GenerateKey (bits r)])
     ∨ (∃ data e0, writeFile env (privatePath env r) = Some e0
                   ∧ e = "write private: " +:+ e0
                   ∧ calls w' = calls w ++ [MkdirAll (outDir r) 493; GenerateKey (bits r);
                                            WriteFile (privatePath env r) data 384])
     ∨ (∃ key data e0, generateKey env (bits r) = Ok key
                       ∧ writeFile env (privatePath env r) = None
                       ∧ MarshalPKIXPublicKey env (publicKey env key) = Err e0
                       ∧ e = "failed to marshal PKCS8 public key: " +:+ e0
                       ∧ calls w' = calls w ++ [MkdirAll (outDir r) 493; GenerateKey (bits r);
                                                WriteFile (privatePath env r) data 384])
     ∨ (∃ data data' e0, writeFile env (privatePath env r) = None
                         ∧ writeFile env (publicPath env r) = Some e0
                         ∧ e = "write public: " +:+ e0
                         ∧ calls w' = calls w ++ [MkdirAll (outDir r) 493; GenerateKey (bits r);
                                                  WriteFile (privatePath env r) data 384;
                                                  WriteFile (publicPath env r) data' 420])).
Proof.
  intros Hv.
  assert (Henc : encoding r = "PEM" ∨ encoding r = "DER")
    by (unfold validate in Hv; by repeat case_decide).
  assert (Hfmt : format r = "PKCS1" ∨ format r = "PKCS8")
    by (unfold validate in Hv; by repeat case_decide).
  clear Hv. unfold exec, private, public, privatePath, publicPath.
  intros H.
  repeat (first [ case_decide | case_match ]; simplify_eq; try done);
    try (destruct Henc, Hfmt; congruence);
    cbn [calls printed call]; rewrite <-?app_assoc; (split; [done|]);
    pick ltac:(repeat eexists; done).
Qed.

(** What [exec] leaves alone: it prints nothing and only adds calls, four
    of them when it returns nil. *)
Lemma exec_frame env r w :
  printed (exec env r w).1 = printed w
  ∧ ∃ new, calls (exec env r w).1 = calls w ++ new
           ∧ ((exec env r w).2 = None → length new = 4).
Proof.
  unfold exec, private, public.
  repeat (first [ case_decide | case_match ]; simplify_eq; try done);
    cbn [calls printed call fst snd]; rewrite <-?app_assoc; (split; [done|]);
    eexists; (split; [done|]); done.
Qed.

(** X17: [run] prints exactly one message.  With flags that [validate]
    rejects it calls nothing at all, neither the system nor the key
    generator; the message is the green one exactly when the flags are
    valid and [exec] returned nil, and then the four calls of a successful
    [exec] were made. *)
Theorem run_verdict env r w :
  ∃ verdict new,
    printed (run env r w) = printed w ++ [verdict]
    ∧ calls (run env r w) = calls w ++ new
    ∧ (validate r ≠ None → new = [] ∧ verdict.1 = Red)
    ∧ (verdict.1 = Green ↔ validate r = None ∧ (exec env r w).2 = None)
    ∧ (verdict.1 = Green → length new = 4).
Proof.
  unfold run. destruct (validate r) as [msg|] eqn:Hv.
  { eexists (Red, _), []. cbn. rewrite app_nil_r. intuition congruence. }
  destruct (exec_frame env r w) as (Hp & new & Hc & Hlen).
  destruct (exec env r w) as [w' [e|]] eqn:He; cbn [fst snd] in *.
  - eexists (Red, _), new. cbn. rewrite Hp, Hc. intuition congruence.
  - eexists (Green, _), new. cbn. rewrite Hp, Hc. intuition congruence.
Qed.

End RsaFacts.

(** ** The statements with hypotheses, at sample flags *)

(** X14 at the key length 512. *)
Lemma validate_reports_first_problem_witness :
  encrypt.validate shortKey
  = Some "invalid bits: 512, must be one of 1024, 2048, 3072, 4096"
  ∧ (encrypt.encoding shortKey = "PEM" ∨ encrypt.encoding shortKey = "DER")
  ∧ ¬ (encrypt.bits shortKey = 1024 ∨ encrypt.bits shortKey = 2048
       ∨ encrypt.bits shortKey = 3072 ∨ encrypt.bits shortKey = 4096)%Z.
Proof.
  assert (Hv : encrypt.validate shortKey
               = Some "invalid bits: 512, must be one of 1024, 2048, 3072, 4096")
    by (vm_compute; reflexivity).
  split; [exact Hv|].
  destruct (validate_reports_first_problem shortKey _ Hv)
    as [[Hn _]|[(He & Hb & _)|(_ & Hb & _)]].
  - exfalso. apply Hn. by left.
  - exact (conj He Hb).
  - exfalso. cbn in Hb. lia.
Defined.

(** X15 on a machine on which every call succeeds. *)
Lemma exec_success_writes_both_keys_witness :
  encrypt.exec sampleEnv outKeys idle = ((encrypt.exec sampleEnv outKeys idle).1, None)
  ∧ encrypt.calls (encrypt.exec sampleEnv outKeys idle).1
    = [encrypt.MkdirAll "out" 493; encrypt.GenerateKey 2048;
       encrypt.WriteFile "out/private.pem" "pem PRIVATE KEY: pkcs8 key" 384;
       encrypt.WriteFile "out/public.pem" "pem PUBLIC KEY: pkix public key" 420].
Proof.
  assert (Hok : encrypt.exec sampleEnv outKeys idle
                = ((encrypt.exec sampleEnv outKeys idle).1, None))
    by (vm_compute; reflexivity).
  split; [exact Hok|].
  destruct (exec_success_writes_both_keys sampleEnv outKeys idle _ Hok)
    as (key & privBytes & pubBytes & privType & pubType & Hk & _ & Hf & Hc & _).
  injection Hk as <-.
  destruct Hf as [(Hf & _)|(_ & Hp & Hq & -> & ->)]; [discriminate Hf|].
  injection Hp as <-. injection Hq as <-. exact Hc.
Defined.

(** X16 on a machine on which the output directory cannot be made, with
    the default flags. *)
Lemma exec_failure_after_validate_witness :
  encrypt.validate encrypt.defaults = None
  ∧ encrypt.exec deniedEnv encrypt.defaults idle
    = ((encrypt.exec deniedEnv encrypt.defaults idle).1, Some "mkdir: permission denied")
  ∧ encrypt.printed (encrypt.exec deniedEnv encrypt.defaults idle).1 = [].
Proof.
  assert (Hv : encrypt.validate encrypt.defaults = None) by (vm_compute; reflexivity).
  assert (He : encrypt.exec deniedEnv encrypt.defaults idle
               = ((encrypt.exec deniedEnv encrypt.defaults idle).1,
                  Some "mkdir: permission denied"))
    by (vm_compute; reflexivity).
  split; [exact Hv|]. split; [exact He|].
  exact (proj1 (exec_failure_after_validate deniedEnv encrypt.defaults idle _ _ Hv He)).
Defined.

(** * Properties of [types.DbTime] *)

Section DbTimeFacts.
Import dbtime.
Local Open Scope Z_scope.

(** Decimal numerals of different integers differ. *)
Lemma FormatInt_inj a b : FormatInt a = FormatInt b → a = b.
Proof.
  unfold FormatInt. intros H. apply DecimalZ.to_int_inj.
  assert (Hnn : ∀ z, Z.to_int z ≠ Decimal.Pos Decimal.Nil
                     ∧ Z.to_int z ≠ Decimal.Neg Decimal.Nil).
  { intros [|p|p]; cbn; split; try done; intros [= Hp];
      by apply DecimalPos.Unsigned.to_uint_nonnil in Hp. }
  apply (f_equal DecimalString.NilZero.int_of_string) in H.
  rewrite !DecimalString.NilZero.isi in H by apply Hnn. by injection H.
Qed.

Lemma int64_mod z : int64 z mod 2 ^ 64 = z mod 2 ^ 64.
Proof.
  unfold int64. rewrite Zminus_mod, Zmod_mod, <-Zminus_mod.
  f_equal. lia.
Qed.

Lemma int64_eq_iff a b : int64 a = int64 b ↔ (a - b) mod 2 ^ 64 = 0.
Proof.
  rewrite <-Z.cong_iff_0. split.
  - intros H. by rewrite <-(int64_mod a), <-(int64_mod b), H.
  - intros H. unfold int64. f_equal.
    rewrite <-(Z.add_mod_idemp_l a), <-(Z.add_mod_idemp_l b), H by done. done.
Qed.

(** [UnixNano] is the nanoseconds since 1970 wrapped around once. *)
Lemma UnixNano_int64 t :
  UnixNano t = int64 ((sec t + internalToUnix) * 1000000000 + nsec t).
Proof.
  unfold UnixNano. apply int64_eq_iff, Z.cong_iff_0.
  rewrite <-Z.add_mod_idemp_l, int64_mod by done.
  rewrite <-Z.mul_mod_idemp_l, int64_mod by done.
  rewrite Z.mul_mod_idemp_l, Z.add_mod_idemp_l by done. done.
Qed.

(** X18: [MarshalJSON] never fails and writes the Unix time in seconds as a
    decimal numeral: two times give the same JSON exactly when they fall in
    the same second, whatever their nanoseconds. *)
Theorem MarshalJSON_is_unix_seconds t1 t2 :
  MarshalJSON t1 = Ok (FormatInt (Unix (Time_ t1)))
  ∧ (MarshalJSON t1 = MarshalJSON t2 ↔ Unix (Time_ t1) = Unix (Time_ t2)).
Proof.
  split; [done|]. unfold MarshalJSON. split.
  - intros [= H]. by apply FormatInt_inj.
  - by intros ->.
Qed.

(** The comparison made by [Value]. *)
Lemma UnixNano_zero_iff t :
  UnixNano t = UnixNano zeroTime ↔ (sec t * 1000000000 + nsec t) mod 2 ^ 64 = 0.
Proof.
  rewrite !UnixNano_int64, int64_eq_iff. cbn [sec nsec zeroTime].
  replace ((sec t + internalToUnix) * 1000000000 + nsec t
           - ((0 + internalToUnix) * 1000000000 + 0))
    with (sec t * 1000000000 + nsec t) by lia. done.
Qed.

(** X19: [Value] never fails; it gives nil (a NULL column) exactly for the
    instants that lie a multiple of 2^64 nanoseconds after the zero time,
    the zero time among them, since the two [UnixNano] are compared as
    wrapped-around [int64]; for any other instant it gives the time. *)
Theorem Value_nil_iff t :
  (Value_ t = Ok VNil ↔ (sec (Time_ t) * 1000000000 + nsec (Time_ t)) mod 2 ^ 64 = 0)
  ∧ (Value_ t = Ok VNil ∨ Value_ t = Ok (VTime (Time_ t))).
Proof.
  pose proof (UnixNano_zero_iff (Time_ t)) as H.
  unfold Value_. case_decide as Hd.
  - split; [|by left]. split; [intros _; by apply H|done].
  - split; [|by right]. split; [done|]. intros Hm. by apply H in Hm.
Qed.


End DbTimeFacts.

